(** * Aspia: logging filter, wire messages, user dialog and server-side
      authenticator.

    A shallow embedding of the parts of the Aspia sources that the
    specification talks about, with the properties proved about them.

    - [Logging]             source/base/logging.cc
    - [ProtoAuth]           source/protocol/authorization.pb.cc
    - [User]                net::User's validators (called from user_dialog.cc)
    - [UserDialog]          source/router/manager/user_dialog.cc
    - [ServerAuthenticator] source/peer/server_authenticator.h

    Integers of the C++ code are [Z]; byte strings are [list byte]; UTF-16
    strings ([std::u16string]) are lists of code units. *)

From Stdlib Require Import ZArith List Bool Lia String Ascii.
From Stdlib Require Import Strings.Byte.
Import ListNotations.
Open Scope Z_scope.

(* ================================================================== *)
(** * source/base/logging.cc *)
(* ================================================================== *)

Module Logging.

(** [LoggingSeverity].  The enumerators are declared in base/logging.h; their
    numbering is the one [severityName] relies on: it indexes
    [kLogSeverityNames = {INFO, WARNING, ERROR, FATAL}] by the severity and
    asserts [LS_NUMBER == _countof(kLogSeverityNames)]. *)
Definition LoggingSeverity := Z.

Definition LS_INFO : LoggingSeverity := 0.
Definition LS_WARNING : LoggingSeverity := 1.
Definition LS_ERROR : LoggingSeverity := 2.
Definition LS_FATAL : LoggingSeverity := 3.
Definition LS_NUMBER : Z := 4.

Definition kLogSeverityNames : list string :=
  ["INFO"; "WARNING"; "ERROR"; "FATAL"]%string.

(** [const char* severityName(LoggingSeverity severity)] *)
Definition severityName (severity : LoggingSeverity) : string :=
  if (0 <=? severity) && (severity <? LS_NUMBER)
  then nth (Z.to_nat severity) kLogSeverityNames "UNKNOWN"%string
  else "UNKNOWN"%string.

(** [LoggingDestination] is a bit mask ([g_logging_destination & LOG_TO_FILE]). *)
Definition LoggingDestination := Z.

(** The file-scope globals [g_min_log_level] and [g_logging_destination]. *)
Record Globals : Type := mkGlobals {
  g_min_log_level : LoggingSeverity;
  g_logging_destination : LoggingDestination
}.

(** [struct LoggingSettings]; [log_dir] only matters to the file system. *)
Record LoggingSettings : Type := mkSettings {
  destination : LoggingDestination;
  min_log_level : LoggingSeverity;
  max_log_age : Z
}.

(** ** Strings of the log header and of the log file name *)

(** [std::string_view::find_last_of(chars)]: the index of the last character
    of [s] that is one of [chars]; [None] is [npos]. *)
Fixpoint find_last_of (s chars : list ascii) : option nat :=
  match s with
  | [] => None
  | c :: rest =>
      match find_last_of rest chars with
      | Some pos => Some (S pos)
      | None => if existsb (Ascii.eqb c) chars then Some O else None
      end
  end.

(** The two separators [LogMessage::init] looks for: backslash and slash. *)
Definition separators : list ascii := [ascii_of_nat 92; ascii_of_nat 47].

(** The file name [LogMessage::init] puts in the header: [file] with
    everything up to its last separator removed. *)
Definition header_filename (file : list ascii) : list ascii :=
  match find_last_of file separators with
  | Some last_slash_pos => skipn (last_slash_pos + 1) file
  | None => file
  end.

(** The decimal digits of a number, most significant first (at most
    [fuel] of them; a [WORD] has at most 5). *)
Fixpoint decimal (fuel : nat) (n : Z) : list ascii :=
  match fuel with
  | O => []
  | S f =>
      (if n <? 10 then [] else decimal f (n / 10)) ++
      [ascii_of_nat (48 + Z.to_nat (n mod 10))]
  end.

(** [stream << std::setfill('0') << std::setw(width) << n] for a [WORD]:
    the digits, with zeros in front up to [width] characters. *)
Definition setw (width : nat) (n : Z) : list ascii :=
  let digits := decimal 5 n in
  repeat (ascii_of_nat 48) (width - List.length digits) ++ digits.

(** The fields of [SYSTEMTIME] the file name uses. *)
Record SYSTEMTIME : Type := mkSystemTime {
  wYear : Z;
  wMonth : Z;
  wDay : Z;
  wHour : Z;
  wMinute : Z;
  wSecond : Z;
  wMilliseconds : Z
}.

(** [std::string logFileName()], the Windows branch, on the local time
    [GetLocalTime] returned. *)
Definition logFileName (local_time : SYSTEMTIME) : list ascii :=
  setw 4 (wYear local_time) ++
  setw 2 (wMonth local_time) ++
  setw 2 (wDay local_time) ++
  [ascii_of_nat 45] ++
  setw 2 (wHour local_time) ++
  setw 2 (wMinute local_time) ++
  setw 2 (wSecond local_time) ++
  [ascii_of_nat 46] ++
  setw 3 (wMilliseconds local_time) ++
  list_ascii_of_string ".log".

(** A local time as the calendar gives it. *)
Definition calendar_time (t : SYSTEMTIME) : Prop :=
  0 <= wYear t < 10000 /\ 0 <= wMonth t < 100 /\ 0 <= wDay t < 100 /\
  0 <= wHour t < 100 /\ 0 <= wMinute t < 100 /\ 0 <= wSecond t < 100 /\
  0 <= wMilliseconds t < 1000.

(** ** Old log files *)

(** An entry the directory iterator yields: its path and what the two
    calls of [removeOldFiles] on it give, [item.is_directory()] and
    [item.last_write_time()] (in ticks of the file clock).  [None] is a call
    that throws [std::filesystem::filesystem_error]: neither call is given an
    [error_code]. *)
Record DirEntry : Type := mkEntry {
  entry_path : list ascii;
  is_directory : option bool;
  last_write_time : option Z
}.

(** How a call ends: it returns, or an exception leaves it. *)
Inductive Completion : Type := Returned | Thrown.

(** A signed integer of [bits] bits, as the machine keeps it. *)
Definition wrap (bits : Z) (z : Z) : Z :=
  (z + 2 ^ (bits - 1)) mod 2 ^ bits - 2 ^ (bits - 1).

(** [current_time - std::chrono::hours(24 * max_file_age)]: the product is
    an [int], and the hours are converted to ticks of the file clock and
    subtracted in 64 bits. *)
Definition minus_hours (ticks_per_hour current_time max_file_age : Z) : Z :=
  wrap 64 (current_time
           - wrap 64 (ticks_per_hour * wrap 32 (24 * max_file_age))).

(** The [for] loop of [removeOldFiles] on the entries the iterator still
    has to yield: the entries left in the directory, and how the loop ends.
    [increment_throws] tells whether the increment after the last entry
    throws instead of reaching the end. *)
Fixpoint removeOldFiles_loop (remove_ok : DirEntry -> bool) (time : Z)
    (increment_throws : bool) (items : list DirEntry)
    : list DirEntry * Completion :=
  match items with
  | [] => ([], if increment_throws then Thrown else Returned)
  | item :: rest =>
      match is_directory item with
      | None => (items, Thrown)
      | Some true =>
          let '(kept, completion) :=
            removeOldFiles_loop remove_ok time increment_throws rest in
          (item :: kept, completion)
      | Some false =>
          match last_write_time item with
          | None => (items, Thrown)
          | Some t =>
              let '(kept, completion) :=
                removeOldFiles_loop remove_ok time increment_throws rest in
              (if (t <? time) && remove_ok item then kept else item :: kept,
               completion)
          end
      end
  end.

(** [void removeOldFiles(path, current_time, max_file_age)]: the entries
    left among those the iterator yields, and how the call ends.
    [ticks_per_hour] converts [std::chrono::hours] to the file clock;
    [remove_ok] tells whether [std::filesystem::remove] succeeds on an entry
    (its error code is ignored).  An iterator that yields nothing (an empty
    directory, or one that could not be opened: that error code is ignored
    too) is never incremented. *)
Definition removeOldFiles (ticks_per_hour : Z) (remove_ok : DirEntry -> bool)
    (items : list DirEntry) (increment_throws : bool)
    (current_time : Z) (max_file_age : Z) : list DirEntry * Completion :=
  let time := minus_hours ticks_per_hour current_time max_file_age in
  match items with
  | [] => ([], Returned)
  | _ => removeOldFiles_loop remove_ok time increment_throws items
  end.


(** Where [LogMessage::~LogMessage] sends the message, and whether it
    crashes the process. *)
Record Sinks : Type := mkSinks {
  to_debugger : bool;   (* OutputDebugStringA, on Windows *)
  to_stderr : bool;
  to_file : bool;       (* g_log_file.write on the open stream *)
  crash : bool          (* debugBreak() *)
}.

Section WithDestinations.

(** The enumerators of [LoggingDestination] live in base/logging.h; nothing
    below depends on their values. *)
Variables LOG_NONE LOG_TO_FILE LOG_DEFAULT : LoggingDestination.
Variable LOG_TO_SYSTEM_DEBUG_LOG : LoggingDestination.

(** The globals as initialised at lines 42-43. *)
Definition initial_globals : Globals :=
  {| g_min_log_level := LS_INFO; g_logging_destination := LOG_DEFAULT |}.

(** [LoggingSettings::LoggingSettings()] *)
Definition default_settings : LoggingSettings :=
  {| destination := LOG_DEFAULT; min_log_level := LS_INFO; max_log_age := 7 |}.

(** [bool initLoggingImpl(const LoggingSettings&)].  [fs_ok] stands for the
    outcome of the file-system calls (directory found or created, log file
    opened).  The only global it assigns is [g_logging_destination]. *)
Definition initLoggingImpl (settings : LoggingSettings) (fs_ok : bool)
    (g : Globals) : Globals * bool :=
  let g' := {| g_min_log_level := g_min_log_level g;
               g_logging_destination := destination settings |} in
  if Z.land (g_logging_destination g') LOG_TO_FILE =? 0
  then (g', true)
  else (g', fs_ok).

(** [bool shouldCreateLogMessage(LoggingSeverity severity)] *)
Definition shouldCreateLogMessage (g : Globals) (severity : LoggingSeverity)
    : bool :=
  if severity <? g_min_log_level g then false
  else negb (g_logging_destination g =? LOG_NONE) || (LS_ERROR <=? severity).

(** The globals after a sequence of [initLogging] calls, the only entry
    point of the file that writes them. *)
Fixpoint after_inits (calls : list (LoggingSettings * bool)) (g : Globals)
    : Globals :=
  match calls with
  | [] => g
  | (settings, fs_ok) :: rest =>
      after_inits rest (fst (initLoggingImpl settings fs_ok g))
  end.

(** [g_log_file.is_open()] after [initLoggingImpl]: the stream is closed
    first (line 138) and opened again only on the path that opens the log
    file, the one that returns true with the [LOG_TO_FILE] bit. *)
Definition initLoggingImpl_log_file (settings : LoggingSettings)
    (fs_ok : bool) : bool :=
  negb (Z.land (destination settings) LOG_TO_FILE =? 0) && fs_ok.

(** [g_log_file.is_open()] after a sequence of [initLogging] calls. *)
Fixpoint log_file_after_inits (calls : list (LoggingSettings * bool))
    (log_file_is_open : bool) : bool :=
  match calls with
  | [] => log_file_is_open
  | (settings, fs_ok) :: rest =>
      log_file_after_inits rest (initLoggingImpl_log_file settings fs_ok)
  end.

(** [LogMessage::~LogMessage()] for a message of severity [severity_], with
    [g_log_file] open or not: the write to a stream that is not open reaches
    no file. *)
Definition LogMessage_destroy (g : Globals) (log_file_is_open : bool)
    (severity_ : LoggingSeverity) : Sinks :=
  let debug_log :=
    negb (Z.land (g_logging_destination g) LOG_TO_SYSTEM_DEBUG_LOG =? 0) in
  {| to_debugger := debug_log;
     to_stderr := if debug_log then true else LS_ERROR <=? severity_;
     to_file := negb (Z.land (g_logging_destination g) LOG_TO_FILE =? 0)
                && log_file_is_open;
     crash := severity_ =? LS_FATAL |}.

(** [void logErrorNotReached(file, line)]: a [LogMessage] of severity
    [LS_ERROR], built and destroyed without asking
    [shouldCreateLogMessage]. *)
Definition logErrorNotReached (g : Globals) (log_file_is_open : bool)
    : Sinks :=
  LogMessage_destroy g log_file_is_open LS_ERROR.

Lemma initLoggingImpl_min_level settings fs_ok g :
  g_min_log_level (fst (initLoggingImpl settings fs_ok g)) = g_min_log_level g.
Proof.
  unfold initLoggingImpl; cbn.
  destruct (Z.land (destination settings) LOG_TO_FILE =? 0); reflexivity.
Qed.

Lemma after_inits_min_level calls : forall g,
  g_min_log_level (after_inits calls g) = g_min_log_level g.
Proof.
  induction calls as [|[settings fs_ok] rest IH]; intro g; cbn [after_inits].
  - reflexivity.
  - rewrite IH. apply initLoggingImpl_min_level.
Qed.

Lemma shouldCreateLogMessage_iff g severity :
  shouldCreateLogMessage g severity = true <->
  g_min_log_level g <= severity /\
  (g_logging_destination g <> LOG_NONE \/ LS_ERROR <= severity).
Proof.
  unfold shouldCreateLogMessage.
  destruct (Z.ltb_spec severity (g_min_log_level g)) as [Hlt|Hge].
  - split; [discriminate | intros [H _]; lia].
  - rewrite orb_true_iff, negb_true_iff, Z.eqb_neq, Z.leb_le. tauto.
Qed.

(** C9.  [shouldCreateLogMessage severity] is true exactly when the severity
    is at least [g_min_log_level] and, besides, the destination is not
    [LOG_NONE] or the severity is at least [LS_ERROR].  In every state the
    file can reach (the globals as initialised, then any [initLogging]
    calls), messages of severity [LS_ERROR] and [LS_FATAL] are created even
    when the destination is [LOG_NONE]. *)
Theorem shouldCreateLogMessage_spec :
  (forall g severity,
      shouldCreateLogMessage g severity = true <->
      g_min_log_level g <= severity /\
      (g_logging_destination g <> LOG_NONE \/ LS_ERROR <= severity)) /\
  (forall calls,
      let g := after_inits calls initial_globals in
      shouldCreateLogMessage g LS_ERROR = true /\
      shouldCreateLogMessage g LS_FATAL = true) /\
  (let g := after_inits [({| destination := LOG_NONE; min_log_level := LS_INFO;
                             max_log_age := 7 |}, true)] initial_globals in
   g_logging_destination g = LOG_NONE /\
   shouldCreateLogMessage g LS_ERROR = true /\
   shouldCreateLogMessage g LS_FATAL = true /\
   shouldCreateLogMessage g LS_WARNING = false /\
   shouldCreateLogMessage g LS_INFO = false).
Proof.
  split; [exact shouldCreateLogMessage_iff|].
  assert (Hreach : forall calls,
             let g := after_inits calls initial_globals in
             shouldCreateLogMessage g LS_ERROR = true /\
             shouldCreateLogMessage g LS_FATAL = true).
  { intros calls g.
    assert (Hmin : g_min_log_level g = LS_INFO)
      by (subst g; rewrite after_inits_min_level; reflexivity).
    split; apply shouldCreateLogMessage_iff; rewrite Hmin;
      unfold LS_INFO, LS_ERROR, LS_FATAL; lia. }
  split; [exact Hreach|].
  cbv zeta.
  assert (Hdest : g_logging_destination
            (after_inits [({| destination := LOG_NONE; min_log_level := LS_INFO;
                              max_log_age := 7 |}, true)] initial_globals)
          = LOG_NONE).
  { cbn. unfold initLoggingImpl; cbn.
    destruct (Z.land LOG_NONE LOG_TO_FILE =? 0); reflexivity. }
  split; [exact Hdest|].
  destruct (Hreach [({| destination := LOG_NONE; min_log_level := LS_INFO;
                        max_log_age := 7 |}, true)]) as [He Hf].
  split; [exact He|]. split; [exact Hf|].
  unfold shouldCreateLogMessage. rewrite Hdest, after_inits_min_level.
  rewrite Z.eqb_refl. cbn. split; reflexivity.
Qed.

(** ** The severity names *)

(** [severityName] never reads outside its table: a severity below 0 or
    not below [LS_NUMBER] is named [UNKNOWN], every other one gets a name
    of the table, and two different severities get different names. *)
Theorem severityName_bounds :
  (forall severity,
      severityName severity = "UNKNOWN"%string <->
      severity < 0 \/ LS_NUMBER <= severity) /\
  (forall severity,
      0 <= severity < LS_NUMBER ->
      In (severityName severity) kLogSeverityNames) /\
  (forall s t,
      0 <= s < LS_NUMBER -> 0 <= t < LS_NUMBER ->
      severityName s = severityName t -> s = t).
Proof.
  assert (Hcases : forall s, 0 <= s < LS_NUMBER ->
                     s = 0 \/ s = 1 \/ s = 2 \/ s = 3)
    by (unfold LS_NUMBER; intros; lia).
  split; [|split].
  - intro severity. unfold severityName.
    destruct (Z.leb_spec 0 severity) as [H0|H0];
      destruct (Z.ltb_spec severity LS_NUMBER) as [H1|H1]; cbn [andb];
      try (split; [intros _; lia|reflexivity]).
    split; [|lia].
    destruct (Hcases severity (conj H0 H1)) as [->|[->|[->| ->]]];
      cbn; discriminate.
  - intros severity H.
    destruct (Hcases severity H) as [->|[->|[->| ->]]]; cbn; tauto.
  - intros s t Hs Ht.
    destruct (Hcases s Hs) as [->|[->|[->| ->]]];
      destruct (Hcases t Ht) as [->|[->|[->| ->]]];
      cbn; intro E; try reflexivity; discriminate E.
Qed.

(** ** What [initLogging] does to the globals *)

(** [initLogging] never applies [settings.min_log_level]: after any calls
    the minimum level is still [LS_INFO].  It applies the destination even
    when it fails, and it cannot fail when the destination has no
    [LOG_TO_FILE] bit. *)
Theorem initLogging_applies_destination_only :
  (forall calls,
      g_min_log_level (after_inits calls initial_globals) = LS_INFO) /\
  (forall calls settings fs_ok,
      g_logging_destination
        (after_inits (calls ++ [(settings, fs_ok)]) initial_globals)
      = destination settings) /\
  (forall settings fs_ok g,
      Z.land (destination settings) LOG_TO_FILE = 0 ->
      snd (initLoggingImpl settings fs_ok g) = true) /\
  (forall settings g,
      Z.land (destination settings) LOG_TO_FILE <> 0 ->
      snd (initLoggingImpl settings false g) = false /\
      g_logging_destination (fst (initLoggingImpl settings false g))
      = destination settings).
Proof.
  split; [intro calls; rewrite after_inits_min_level; reflexivity|].
  split.
  { intros calls settings fs_ok. generalize initial_globals.
    induction calls as [|[s0 f0] rest IH]; intro g; cbn [after_inits app].
    - unfold initLoggingImpl. cbn.
      destruct (Z.land (destination settings) LOG_TO_FILE =? 0); reflexivity.
    - apply IH. }
  split.
  { intros settings fs_ok g H. unfold initLoggingImpl. cbn.
    rewrite H. reflexivity. }
  intros settings g H. unfold initLoggingImpl. cbn.
  apply Z.eqb_neq in H. rewrite H. split; reflexivity.
Qed.

(** ** Where a message goes *)

Lemma after_inits_last calls settings fs_ok : forall g,
  g_logging_destination (after_inits (calls ++ [(settings, fs_ok)]) g)
  = destination settings.
Proof.
  induction calls as [|[s0 f0] rest IH]; intro g; cbn [after_inits app].
  - unfold initLoggingImpl. cbn.
    destruct (Z.land (destination settings) LOG_TO_FILE =? 0); reflexivity.
  - apply IH.
Qed.

Lemma log_file_after_inits_last calls settings fs_ok : forall open,
  log_file_after_inits (calls ++ [(settings, fs_ok)]) open
  = initLoggingImpl_log_file settings fs_ok.
Proof.
  induction calls as [|[s0 f0] rest IH]; intro open;
    cbn [log_file_after_inits app]; [reflexivity|apply IH].
Qed.

(** A message of severity [LS_ERROR] or above is always written to
    [stderr], whatever the destination and whether or not the log file is
    open; the process is crashed exactly for [LS_FATAL]; the message reaches
    the log file exactly when the destination has the [LOG_TO_FILE] bit and
    [g_log_file] is open.  After an [initLogging] that failed with that bit
    the bit is set and the file is closed: the message reaches no file, and
    still reaches [stderr].  The message of [NOTREACHED()] always reaches
    [stderr] and never crashes. *)
Theorem errors_reach_stderr g log_file_is_open severity :
  LS_ERROR <= severity ->
  to_stderr (LogMessage_destroy g log_file_is_open severity) = true /\
  (crash (LogMessage_destroy g log_file_is_open severity) = true <->
   severity = LS_FATAL) /\
  (to_file (LogMessage_destroy g log_file_is_open severity) = true <->
   Z.land (g_logging_destination g) LOG_TO_FILE <> 0 /\
   log_file_is_open = true) /\
  (forall calls settings,
      Z.land (destination settings) LOG_TO_FILE <> 0 ->
      let failed := calls ++ [(settings, false)] in
      let g' := after_inits failed initial_globals in
      let open := log_file_after_inits failed false in
      Z.land (g_logging_destination g') LOG_TO_FILE <> 0 /\
      open = false /\
      to_file (LogMessage_destroy g' open severity) = false /\
      to_stderr (LogMessage_destroy g' open severity) = true) /\
  to_stderr (logErrorNotReached g log_file_is_open) = true /\
  crash (logErrorNotReached g log_file_is_open) = false.
Proof.
  intro H. apply Z.leb_le in H.
  assert (Herr : forall g0 open0,
             to_stderr (LogMessage_destroy g0 open0 severity) = true).
  { intros g0 open0. unfold LogMessage_destroy. cbn. rewrite H.
    destruct (negb _); reflexivity. }
  split; [apply Herr|].
  split; [unfold LogMessage_destroy; cbn; apply Z.eqb_eq|].
  split.
  { unfold LogMessage_destroy. cbn.
    rewrite andb_true_iff, negb_true_iff, Z.eqb_neq. tauto. }
  split.
  { intros calls settings Hbit failed g' open. subst failed g' open.
    rewrite after_inits_last, log_file_after_inits_last.
    unfold initLoggingImpl_log_file. rewrite andb_false_r.
    split; [exact Hbit|]. split; [reflexivity|].
    split; [|apply Herr].
    unfold LogMessage_destroy. cbn. apply andb_false_r. }
  unfold logErrorNotReached, LogMessage_destroy. cbn.
  split; [destruct (negb _); reflexivity|reflexivity].
Qed.

(** When [LOG_NONE] has neither the file bit nor the debug-log bit, a
    message that passes the level test and that [shouldCreateLogMessage]
    still refuses is one its destructor would have sent nowhere. *)
Theorem refused_message_goes_nowhere g log_file_is_open severity :
  Z.land LOG_NONE LOG_TO_FILE = 0 ->
  Z.land LOG_NONE LOG_TO_SYSTEM_DEBUG_LOG = 0 ->
  g_min_log_level g <= severity ->
  shouldCreateLogMessage g severity = false ->
  LogMessage_destroy g log_file_is_open severity
  = mkSinks false false false false.
Proof.
  intros Hfile Hdebug Hlevel Hno. unfold shouldCreateLogMessage in Hno.
  destruct (Z.ltb_spec severity (g_min_log_level g)) as [Hlt|_]; [lia|].
  apply orb_false_iff in Hno. destruct Hno as [Hdest Herr].
  apply negb_false_iff, Z.eqb_eq in Hdest.
  unfold LogMessage_destroy. rewrite Hdest, Hfile, Hdebug, Herr. cbn.
  apply Z.leb_gt in Herr.
  destruct (Z.eqb_spec severity LS_FATAL) as [E|_]; [|reflexivity].
  unfold LS_FATAL, LS_ERROR in *. lia.
Qed.

End WithDestinations.

(** With [LOG_TO_FILE = 1] and [LOG_TO_SYSTEM_DEBUG_LOG = 2]: an error
    logged while only the file is a destination and the file is not open
    goes to [stderr] and not to the file, and does not crash. *)
Lemma errors_reach_stderr_witness :
  to_stderr (LogMessage_destroy 1 2 (mkGlobals LS_INFO 1) false LS_ERROR)
  = true /\
  to_file (LogMessage_destroy 1 2 (mkGlobals LS_INFO 1) false LS_ERROR)
  = false /\
  crash (logErrorNotReached 1 2 (mkGlobals LS_INFO 1) false) = false.
Proof.
  destruct (errors_reach_stderr 1 0 2 (mkGlobals LS_INFO 1) false LS_ERROR
              ltac:(unfold LS_ERROR; lia)) as [He [_ [Hf [_ [_ Hc]]]]].
  split; [exact He|]. split; [|exact Hc].
  destruct (to_file _) eqn:E; [|reflexivity].
  destruct (proj1 Hf eq_refl) as [_ Hopen]. discriminate Hopen.
Defined.

(** With [LOG_NONE = 0], [LOG_TO_FILE = 1], [LOG_TO_SYSTEM_DEBUG_LOG = 2]:
    a warning under destination [LOG_NONE] is refused, and would have gone
    nowhere. *)
Lemma refused_message_goes_nowhere_witness :
  shouldCreateLogMessage 0 (mkGlobals LS_INFO 0) LS_WARNING = false /\
  LogMessage_destroy 1 2 (mkGlobals LS_INFO 0) true LS_WARNING
  = mkSinks false false false false.
Proof.
  split; [reflexivity|].
  apply (refused_message_goes_nowhere 0 1 2 (mkGlobals LS_INFO 0) true
           LS_WARNING);
    [reflexivity|reflexivity|unfold LS_INFO, LS_WARNING; cbn; lia|reflexivity].
Defined.

(** ** The file name of the header *)

Definition is_separator (c : ascii) : bool := existsb (Ascii.eqb c) separators.

Lemma find_last_of_none s chars :
  find_last_of s chars = None ->
  Forall (fun c => existsb (Ascii.eqb c) chars = false) s.
Proof.
  induction s as [|c rest IH]; cbn; intro H; [constructor|].
  destruct (find_last_of rest chars); [discriminate|].
  destruct (existsb (Ascii.eqb c) chars) eqn:E; [discriminate|].
  constructor; auto.
Qed.

Lemma find_last_of_some s chars : forall pos,
  find_last_of s chars = Some pos ->
  exists pre c post,
    s = pre ++ c :: post /\ List.length pre = pos /\
    existsb (Ascii.eqb c) chars = true /\
    find_last_of post chars = None.
Proof.
  induction s as [|c rest IH]; cbn; intros pos H; [discriminate|].
  destruct (find_last_of rest chars) as [q|] eqn:E.
  - injection H as <-. destruct (IH q eq_refl) as [pre [d [post [-> [Hl [Hd Hn]]]]]].
    exists (c :: pre), d, post. cbn. rewrite Hl. auto.
  - destruct (existsb (Ascii.eqb c) chars) eqn:Hc; [|discriminate].
    injection H as <-. exists [], c, rest. auto.
Qed.

(** The file name of the log header is what follows the last slash or
    backslash of [file]: it holds no separator, [file] is a directory part
    that is empty or ends in a separator followed by it, and a name without
    separator is kept whole. *)
Theorem header_filename_is_base_name file :
  Forall (fun c => is_separator c = false) (header_filename file) /\
  (exists dir,
      file = dir ++ header_filename file /\
      (dir = [] \/ exists d c, dir = d ++ [c] /\ is_separator c = true)) /\
  (Forall (fun c => is_separator c = false) file ->
   header_filename file = file) /\
  header_filename (header_filename file) = header_filename file.
Proof.
  assert (Hkeep : forall f, Forall (fun c => is_separator c = false) f ->
                            header_filename f = f).
  { intros f Hf. unfold header_filename.
    destruct (find_last_of f separators) as [pos|] eqn:E; [|reflexivity].
    destruct (find_last_of_some f separators pos E)
      as [pre [c [post [-> [_ [Hc _]]]]]].
    rewrite Forall_forall in Hf.
    assert (is_separator c = false) by (apply Hf, in_elt).
    unfold is_separator in *. congruence. }
  assert (Hnone : Forall (fun c => is_separator c = false)
                         (header_filename file)).
  { unfold header_filename.
    destruct (find_last_of file separators) as [pos|] eqn:E.
    - destruct (find_last_of_some file separators pos E)
        as [pre [c [post [-> [Hl [_ Hn]]]]]].
      replace (pos + 1)%nat with (List.length (pre ++ [c]))
        by (rewrite length_app, Hl; reflexivity).
      replace (pre ++ c :: post) with ((pre ++ [c]) ++ post)
        by (rewrite <- app_assoc; reflexivity).
      rewrite skipn_app, skipn_all, Nat.sub_diag. cbn [app skipn].
      unfold is_separator. apply find_last_of_none. exact Hn.
    - unfold is_separator. apply find_last_of_none. exact E. }
  split; [exact Hnone|].
  split; [|split; [apply Hkeep|apply Hkeep; exact Hnone]].
  unfold header_filename.
  destruct (find_last_of file separators) as [pos|] eqn:E.
  - destruct (find_last_of_some file separators pos E)
      as [pre [c [post [-> [Hl [Hc _]]]]]].
    exists (pre ++ [c]). split.
    + replace (pos + 1)%nat with (List.length (pre ++ [c]))
        by (rewrite length_app, Hl; reflexivity).
      replace (pre ++ c :: post) with ((pre ++ [c]) ++ post) at 2
        by (rewrite <- app_assoc; reflexivity).
      rewrite skipn_app, skipn_all, Nat.sub_diag. cbn [app skipn].
      rewrite <- app_assoc. reflexivity.
    + right. exists pre, c. split; [reflexivity|exact Hc].
  - exists []. split; [reflexivity|left; reflexivity].
Qed.

(** ** Old log files *)






(** Outside these bounds the file just opened is not safe: with a file
    clock in nanoseconds and an age of 200000 days the hours overflow 64
    bits, the limit lies after [current_time], and a file written at
    [current_time] is removed.  And an entry whose [last_write_time] throws
    ends the call with the entries after it not visited. *)
Example removeOldFiles_out_of_bounds :
  let now := 1700000000 * 1000000000 in
  let fresh := mkEntry (list_ascii_of_string "new.log") (Some false) (Some now) in
  let gone := mkEntry (list_ascii_of_string "gone.log") (Some false) None in
  let old := mkEntry (list_ascii_of_string "old.log") (Some false) (Some 0) in
  removeOldFiles 3600000000000 (fun _ => true) [fresh] false now 200000
  = ([], Returned) /\
  removeOldFiles 3600000000000 (fun _ => true) [gone; old] false now 7
  = ([gone; old], Thrown).
Proof. cbv zeta. split; vm_compute; reflexivity. Qed.

(** ** The name of the log file *)

(** The number a string of digits stands for. *)
Definition undecimal (l : list ascii) : Z :=
  fold_left (fun acc c => acc * 10 + (Z.of_nat (nat_of_ascii c) - 48)) l 0.

Lemma range_forallb (P : Z -> bool) (n : nat) :
  forallb P (map Z.of_nat (seq 0 n)) = true ->
  forall z, 0 <= z < Z.of_nat n -> P z = true.
Proof.
  intros H z Hz. rewrite forallb_forall in H. apply H.
  apply in_map_iff. exists (Z.to_nat z). split; [lia|].
  apply in_seq. lia.
Qed.

(** Below [10^width], [setw width] writes exactly [width] digits, from
    which the number is read back. *)
Lemma setw_exact width n :
  (width = 2 \/ width = 3 \/ width = 4)%nat ->
  0 <= n < 10 ^ Z.of_nat width ->
  List.length (setw width n) = width /\ undecimal (setw width n) = n.
Proof.
  intros Hw Hn.
  assert (H : (Nat.eqb (List.length (setw width n)) width
               && (undecimal (setw width n) =? n)) = true).
  { destruct Hw as [->|[->| ->]];
      [apply (range_forallb
                (fun z => Nat.eqb (List.length (setw 2 z)) 2
                          && (undecimal (setw 2 z) =? z)) 100)
      |apply (range_forallb
                (fun z => Nat.eqb (List.length (setw 3 z)) 3
                          && (undecimal (setw 3 z) =? z)) 1000)
      |apply (range_forallb
                (fun z => Nat.eqb (List.length (setw 4 z)) 4
                          && (undecimal (setw 4 z) =? z))
                (100 * 100)%nat)];
      solve [vm_compute; reflexivity | exact Hn]. }
  apply andb_true_iff in H. destruct H as [H1 H2].
  apply Nat.eqb_eq in H1. apply Z.eqb_eq in H2. auto.
Qed.

Lemma app_same_length (A : Type) (a a' b b' : list A) :
  List.length a = List.length a' -> a ++ b = a' ++ b' -> a = a' /\ b = b'.
Proof.
  revert a'. induction a as [|x a IH]; intros [|x' a'] Hl H;
    try discriminate Hl; cbn in *.
  - auto.
  - injection H as -> H. injection Hl as Hl.
    destruct (IH a' Hl H) as [-> ->]. auto.
Qed.

(** Two fields written by [setw] in front of two rests are equal only if
    the numbers and the rests are. *)
Lemma setw_app_inj width n m rest rest' :
  (width = 2 \/ width = 3 \/ width = 4)%nat ->
  0 <= n < 10 ^ Z.of_nat width -> 0 <= m < 10 ^ Z.of_nat width ->
  setw width n ++ rest = setw width m ++ rest' ->
  n = m /\ rest = rest'.
Proof.
  intros Hw Hn Hm H.
  destruct (setw_exact width n Hw Hn) as [Ln Un].
  destruct (setw_exact width m Hw Hm) as [Lm Um].
  destruct (app_same_length _ _ _ _ _ (eq_trans Ln (eq_sym Lm)) H) as [E R].
  split; [|exact R]. rewrite <- Un, <- Um, E. reflexivity.
Qed.

(** For calendar times the name of the log file has 23 characters, and two
    different times never give the same name. *)
Theorem logFileName_distinct t1 t2 :
  calendar_time t1 -> calendar_time t2 ->
  List.length (logFileName t1) = 23%nat /\
  (logFileName t1 = logFileName t2 -> t1 = t2).
Proof.
  destruct t1 as [y1 mo1 d1 h1 mi1 s1 ms1].
  destruct t2 as [y2 mo2 d2 h2 mi2 s2 ms2].
  unfold calendar_time, logFileName. cbn [wYear wMonth wDay wHour wMinute
                                          wSecond wMilliseconds].
  intros [Hy1 [Hmo1 [Hd1 [Hh1 [Hmi1 [Hs1 Hms1]]]]]]
         [Hy2 [Hmo2 [Hd2 [Hh2 [Hmi2 [Hs2 Hms2]]]]]].
  assert (W2 : (2 = 2 \/ 2 = 3 \/ 2 = 4)%nat) by auto.
  assert (W3 : (3 = 2 \/ 3 = 3 \/ 3 = 4)%nat) by auto.
  assert (W4 : (4 = 2 \/ 4 = 3 \/ 4 = 4)%nat) by auto.
  split.
  - rewrite !length_app.
    rewrite (proj1 (setw_exact 4 y1 W4 Hy1)), (proj1 (setw_exact 2 mo1 W2 Hmo1)),
      (proj1 (setw_exact 2 d1 W2 Hd1)), (proj1 (setw_exact 2 h1 W2 Hh1)),
      (proj1 (setw_exact 2 mi1 W2 Hmi1)), (proj1 (setw_exact 2 s1 W2 Hs1)),
      (proj1 (setw_exact 3 ms1 W3 Hms1)).
    reflexivity.
  - intro H.
    apply (setw_app_inj 4) in H; auto. destruct H as [-> H].
    apply (setw_app_inj 2) in H; auto. destruct H as [-> H].
    apply (setw_app_inj 2) in H; auto. destruct H as [-> H].
    cbn [app] in H. injection H as H.
    apply (setw_app_inj 2) in H; auto. destruct H as [-> H].
    apply (setw_app_inj 2) in H; auto. destruct H as [-> H].
    apply (setw_app_inj 2) in H; auto. destruct H as [-> H].
    cbn [app] in H. injection H as H.
    apply (setw_app_inj 3) in H; auto. destruct H as [-> H].
    reflexivity.
Qed.

(** Two log files opened one millisecond apart on 30 October 2026. *)
Lemma logFileName_distinct_witness :
  logFileName (mkSystemTime 2026 10 30 9 5 7 41)
  = list_ascii_of_string "20261030-090507.041.log" /\
  logFileName (mkSystemTime 2026 10 30 9 5 7 41)
  <> logFileName (mkSystemTime 2026 10 30 9 5 7 42).
Proof.
  split; [reflexivity|].
  intro H.
  apply (logFileName_distinct (mkSystemTime 2026 10 30 9 5 7 41)
                              (mkSystemTime 2026 10 30 9 5 7 42)) in H;
    [discriminate H|unfold calendar_time; cbn; lia
    |unfold calendar_time; cbn; lia].
Defined.

End Logging.

(* ================================================================== *)
(** * source/protocol/authorization.pb.cc *)
(* ================================================================== *)

Module ProtoAuth.

(** ** Enumerations *)

(** [bool SessionType_IsValid(int value)] *)
Definition SessionType_IsValid (value : Z) : bool :=
  match value with
  | 0 | 1 | 2 | 4 => true
  | _ => false
  end.

(** [bool Status_IsValid(int value)] *)
Definition Status_IsValid (value : Z) : bool :=
  match value with
  | 0 | 1 | 2 | 3 => true
  | _ => false
  end.

(** The session types the specification names, for comparison with the
    values [SessionType_IsValid] accepts. *)
Inductive SpecSessionType : Type :=
| DESKTOP_MANAGE
| DESKTOP_VIEW
| FILE_TRANSFER
| ROUTER_SESSION_MANAGER
| ROUTER_SESSION_AUTHORIZED_PEER.

(** A value usable as one bit of a mask. *)
Definition single_bit (v : Z) : Prop := exists k, 0 <= k /\ v = 2 ^ k.

(** ** The wire, as [WireFormatLite] reads and writes it *)

Inductive WireType : Type :=
| WIRETYPE_VARINT
| WIRETYPE_FIXED64
| WIRETYPE_LENGTH_DELIMITED
| WIRETYPE_START_GROUP
| WIRETYPE_END_GROUP
| WIRETYPE_FIXED32.

Definition WireType_value (w : WireType) : Z :=
  match w with
  | WIRETYPE_VARINT => 0
  | WIRETYPE_FIXED64 => 1
  | WIRETYPE_LENGTH_DELIMITED => 2
  | WIRETYPE_START_GROUP => 3
  | WIRETYPE_END_GROUP => 4
  | WIRETYPE_FIXED32 => 5
  end.

(** The field types the three messages use. *)
Inductive FieldType : Type :=
| TYPE_UINT32
| TYPE_ENUM
| TYPE_STRING
| TYPE_BYTES.

Definition WireTypeForFieldType (t : FieldType) : WireType :=
  match t with
  | TYPE_UINT32 | TYPE_ENUM => WIRETYPE_VARINT
  | TYPE_STRING | TYPE_BYTES => WIRETYPE_LENGTH_DELIMITED
  end.

Definition MakeTag (field_number : Z) (w : WireType) : Z :=
  Z.lor (Z.shiftl field_number 3) (WireType_value w).

Definition GetTagFieldNumber (tag : Z) : Z := Z.shiftr tag 3.
Definition GetTagWireType (tag : Z) : Z := Z.land tag 7.

(** [static_cast<uint8>(tag)] *)
Definition uint8_of (tag : Z) : Z := Z.land tag 255.

Definition to_uint32 (v : Z) : Z := v mod 2 ^ 32.
Definition to_uint64 (v : Z) : Z := v mod 2 ^ 64.

(** [static_cast<int>] of a 32-bit pattern. *)
Definition to_int32 (v : Z) : Z :=
  let u := to_uint32 v in if u <? 2 ^ 31 then u else u - 2 ^ 32.

(** One field on the wire: its tag and what follows it. *)
Inductive Payload : Type :=
| Varint (v : Z)
| Fixed64 (v : Z)
| LengthDelimited (b : list byte)
| Group (body : list byte)
| Fixed32 (v : Z).

Record Field : Type := mkField { tag : Z; payload : Payload }.

(** The calls a [SerializeWithCachedSizes] makes on its output stream. *)
Inductive WriteOp : Type :=
| WriteUInt32 (field_number : Z) (value : Z)
| WriteEnum (field_number : Z) (value : Z)
| WriteStringMaybeAliased (field_number : Z) (value : list byte)
| WriteBytesMaybeAliased (field_number : Z) (value : list byte)
| WriteRaw (unknown_fields : list Field).

(** What each call puts on the wire.  [WriteEnum] writes the value
    sign-extended to 64 bits. *)
Definition wire_of_op (op : WriteOp) : list Field :=
  match op with
  | WriteUInt32 n v => [mkField (MakeTag n WIRETYPE_VARINT) (Varint v)]
  | WriteEnum n v => [mkField (MakeTag n WIRETYPE_VARINT) (Varint (to_uint64 v))]
  | WriteStringMaybeAliased n s =>
      [mkField (MakeTag n WIRETYPE_LENGTH_DELIMITED) (LengthDelimited s)]
  | WriteBytesMaybeAliased n b =>
      [mkField (MakeTag n WIRETYPE_LENGTH_DELIMITED) (LengthDelimited b)]
  | WriteRaw fs => fs
  end.

Definition wire_of (ops : list WriteOp) : list Field :=
  flat_map wire_of_op ops.

(** Field number and declared type of a write; [None] for the raw copy of
    the unknown fields. *)
Definition op_signature (op : WriteOp) : option (Z * FieldType) :=
  match op with
  | WriteUInt32 n _ => Some (n, TYPE_UINT32)
  | WriteEnum n _ => Some (n, TYPE_ENUM)
  | WriteStringMaybeAliased n _ => Some (n, TYPE_STRING)
  | WriteBytesMaybeAliased n _ => Some (n, TYPE_BYTES)
  | WriteRaw _ => None
  end.

(** [WireFormatLite::SkipField]: a field whose payload agrees with the wire
    type of its tag is copied to the unknown fields; an end-group tag or an
    unassigned wire type fails. *)
Definition SkipField (f : Field) : bool :=
  match GetTagWireType (tag f), payload f with
  | 0, Varint _ => true
  | 1, Fixed64 _ => true
  | 2, LengthDelimited _ => true
  | 3, Group _ => true
  | 5, Fixed32 _ => true
  | _, _ => false
  end.

(** ** Messages *)

Record Request : Type := mkRequest {
  version : Z;                       (* uint32 version = 1 *)
  nonce : list byte;                 (* bytes nonce = 2 *)
  Request_unknown_fields : list Field
}.

Record Response : Type := mkResponse {
  session_type : Z;                  (* SessionType session_type = 1 *)
  username : list byte;              (* string username = 2 *)
  key : list byte;                   (* bytes key = 3 *)
  Response_unknown_fields : list Field
}.

Record Result : Type := mkResult {
  status : Z;                        (* Status status = 1 *)
  Result_unknown_fields : list Field
}.

(** [Request::Clear], [Response::Clear], [Result::Clear] *)
Definition Request_Clear : Request := mkRequest 0 [] [].
Definition Response_Clear : Response := mkResponse 0 [] [] [].
Definition Result_Clear : Result := mkResult 0 [].

(** ** The message table

    Field number, declared type and name of every field, as the generated
    code states them (the [// uint32 version = 1;] comments, the
    [k...FieldNumber] constants and the accessors). *)

Record FieldDesc : Type := mkDesc {
  number : Z;
  type : FieldType;
  name : string
}.

Definition Request_fields : list FieldDesc :=
  [mkDesc 1 TYPE_UINT32 "version"; mkDesc 2 TYPE_BYTES "nonce"].

Definition Response_fields : list FieldDesc :=
  [mkDesc 1 TYPE_ENUM "session_type"; mkDesc 2 TYPE_STRING "username";
   mkDesc 3 TYPE_BYTES "key"].

Definition Result_fields : list FieldDesc :=
  [mkDesc 1 TYPE_ENUM "status"].

(** Number and type of each field of a message. *)
Definition signatures (fs : list FieldDesc) : list (Z * FieldType) :=
  map (fun d => (number d, type d)) fs.

(** The tags under which the fields of a message travel. *)
Definition known_tags (fs : list FieldDesc) : list Z :=
  map (fun d => MakeTag (number d) (WireTypeForFieldType (type d))) fs.

(** A tag that is a 32-bit unsigned number and none of the table's. *)
Definition unlisted_tag (fields : list FieldDesc) (t : Z) : Prop :=
  0 <= t /\ ~ In t (known_tags fields).

Section Codec.

(** [GetProto3PreserveUnknownsDefault()] and the UTF-8 check of
    [VerifyUtf8String] belong to the protobuf runtime. *)
Variable GetProto3PreserveUnknownsDefault : bool.
Variable IsStructurallyValidUTF8 : list byte -> bool.

(** The sizes [WireFormatLite] counts for a value, and the bytes an unknown
    field takes in the unknown-fields buffer. *)
Variables UInt32Size EnumSize : Z -> Z.
Variables BytesSize StringSize : list byte -> Z.
Variable FieldSize : Field -> Z.

Definition raw_unknown (fs : list Field) : list WriteOp :=
  [WriteRaw (if GetProto3PreserveUnknownsDefault then fs else [])].

(** [Request::SerializeWithCachedSizes] *)
Definition Request_SerializeWithCachedSizes (m : Request) : list WriteOp :=
  (if version m =? 0 then [] else [WriteUInt32 1 (version m)]) ++
  (if (0 <? Z.of_nat (List.length (nonce m)))
   then [WriteBytesMaybeAliased 2 (nonce m)] else []) ++
  raw_unknown (Request_unknown_fields m).

(** [Response::SerializeWithCachedSizes] *)
Definition Response_SerializeWithCachedSizes (m : Response) : list WriteOp :=
  (if session_type m =? 0 then [] else [WriteEnum 1 (session_type m)]) ++
  (if (0 <? Z.of_nat (List.length (username m)))
   then [WriteStringMaybeAliased 2 (username m)] else []) ++
  (if (0 <? Z.of_nat (List.length (key m)))
   then [WriteBytesMaybeAliased 3 (key m)] else []) ++
  raw_unknown (Response_unknown_fields m).

(** [Result::SerializeWithCachedSizes] *)
Definition Result_SerializeWithCachedSizes (m : Result) : list WriteOp :=
  (if status m =? 0 then [] else [WriteEnum 1 (status m)]) ++
  raw_unknown (Result_unknown_fields m).

(** [Request::MergePartialFromCodedStream].  The stream is the list of the
    fields still to be read; [ReadTagWithCutoffNoLastTag(127)] yields tag 0 at
    its end.  [None] is the [failure] label. *)
Fixpoint Request_MergePartialFromCodedStream (input : list Field)
    (m : Request) : option Request :=
  match input with
  | [] => Some m
  | f :: rest =>
      let handle_unusual :=
        if tag f =? 0 then Some m
        else if SkipField f
             then Request_MergePartialFromCodedStream rest
                    (mkRequest (version m) (nonce m)
                               (Request_unknown_fields m ++ [f]))
             else None in
      if tag f <=? 127 then
        match GetTagFieldNumber (tag f) with
        | 1 =>
            if uint8_of (tag f) =? 8 then
              match payload f with
              | Varint v =>
                  Request_MergePartialFromCodedStream rest
                    (mkRequest (to_uint32 v) (nonce m)
                               (Request_unknown_fields m))
              | _ => None
              end
            else handle_unusual
        | 2 =>
            if uint8_of (tag f) =? 18 then
              match payload f with
              | LengthDelimited b =>
                  Request_MergePartialFromCodedStream rest
                    (mkRequest (version m) b (Request_unknown_fields m))
              | _ => None
              end
            else handle_unusual
        | _ => handle_unusual
        end
      else handle_unusual
  end.

(** [Response::MergePartialFromCodedStream] *)
Fixpoint Response_MergePartialFromCodedStream (input : list Field)
    (m : Response) : option Response :=
  match input with
  | [] => Some m
  | f :: rest =>
      let handle_unusual :=
        if tag f =? 0 then Some m
        else if SkipField f
             then Response_MergePartialFromCodedStream rest
                    (mkResponse (session_type m) (username m) (key m)
                                (Response_unknown_fields m ++ [f]))
             else None in
      if tag f <=? 127 then
        match GetTagFieldNumber (tag f) with
        | 1 =>
            if uint8_of (tag f) =? 8 then
              match payload f with
              | Varint v =>
                  Response_MergePartialFromCodedStream rest
                    (mkResponse (to_int32 v) (username m) (key m)
                                (Response_unknown_fields m))
              | _ => None
              end
            else handle_unusual
        | 2 =>
            if uint8_of (tag f) =? 18 then
              match payload f with
              | LengthDelimited s =>
                  if IsStructurallyValidUTF8 s
                  then Response_MergePartialFromCodedStream rest
                         (mkResponse (session_type m) s (key m)
                                     (Response_unknown_fields m))
                  else None
              | _ => None
              end
            else handle_unusual
        | 3 =>
            if uint8_of (tag f) =? 26 then
              match payload f with
              | LengthDelimited b =>
                  Response_MergePartialFromCodedStream rest
                    (mkResponse (session_type m) (username m) b
                                (Response_unknown_fields m))
              | _ => None
              end
            else handle_unusual
        | _ => handle_unusual
        end
      else handle_unusual
  end.

(** [Result::MergePartialFromCodedStream] *)
Fixpoint Result_MergePartialFromCodedStream (input : list Field)
    (m : Result) : option Result :=
  match input with
  | [] => Some m
  | f :: rest =>
      let handle_unusual :=
        if tag f =? 0 then Some m
        else if SkipField f
             then Result_MergePartialFromCodedStream rest
                    (mkResult (status m) (Result_unknown_fields m ++ [f]))
             else None in
      if tag f <=? 127 then
        match GetTagFieldNumber (tag f) with
        | 1 =>
            if uint8_of (tag f) =? 8 then
              match payload f with
              | Varint v =>
                  Result_MergePartialFromCodedStream rest
                    (mkResult (to_int32 v) (Result_unknown_fields m))
              | _ => None
              end
            else handle_unusual
        | _ => handle_unusual
        end
      else handle_unusual
  end.

(** What [handle_unusual] does with a field the message does not know. *)
Definition Request_add_unknown (f : Field) (m : Request) : Request :=
  mkRequest (version m) (nonce m) (Request_unknown_fields m ++ [f]).

Definition Response_add_unknown (f : Field) (m : Response) : Response :=
  mkResponse (session_type m) (username m) (key m)
             (Response_unknown_fields m ++ [f]).

Definition Result_add_unknown (f : Field) (m : Result) : Result :=
  mkResult (status m) (Result_unknown_fields m ++ [f]).

(** [Request::MergeFrom(const Request& from)]: the unknown fields of [from]
    are appended, and its nonce and version taken when they are not the
    defaults. *)
Definition Request_MergeFrom (this from : Request) : Request :=
  mkRequest
    (if version from =? 0 then version this else version from)
    (if 0 <? Z.of_nat (List.length (nonce from))
     then nonce from else nonce this)
    (Request_unknown_fields this ++ Request_unknown_fields from).

(** [Response::MergeFrom(const Response& from)] *)
Definition Response_MergeFrom (this from : Response) : Response :=
  mkResponse
    (if session_type from =? 0 then session_type this else session_type from)
    (if 0 <? Z.of_nat (List.length (username from))
     then username from else username this)
    (if 0 <? Z.of_nat (List.length (key from)) then key from else key this)
    (Response_unknown_fields this ++ Response_unknown_fields from).

(** [Result::MergeFrom(const Result& from)] *)
Definition Result_MergeFrom (this from : Result) : Result :=
  mkResult
    (if status from =? 0 then status this else status from)
    (Result_unknown_fields this ++ Result_unknown_fields from).

(** [Request::CopyFrom(const Request& from)]: [Clear()] then
    [MergeFrom(from)], unless [from] is the object itself, which is left as it
    is. *)
Definition Request_CopyFrom (this from : Request) (same_object : bool)
    : Request :=
  if same_object then this else Request_MergeFrom Request_Clear from.

(** [Response::CopyFrom(const Response& from)] *)
Definition Response_CopyFrom (this from : Response) (same_object : bool)
    : Response :=
  if same_object then this else Response_MergeFrom Response_Clear from.

(** [Result::CopyFrom(const Result& from)] *)
Definition Result_CopyFrom (this from : Result) (same_object : bool)
    : Result :=
  if same_object then this else Result_MergeFrom Result_Clear from.

(** The bytes the unknown fields take, and the bytes of one write: one
    byte of tag and what the runtime counts for the value. *)
Definition unknown_size (fs : list Field) : Z :=
  fold_right (fun f acc => FieldSize f + acc) 0 fs.

Definition op_size (op : WriteOp) : Z :=
  match op with
  | WriteUInt32 _ v => 1 + UInt32Size v
  | WriteEnum _ v => 1 + EnumSize v
  | WriteStringMaybeAliased _ s => 1 + StringSize s
  | WriteBytesMaybeAliased _ b => 1 + BytesSize b
  | WriteRaw fs => unknown_size fs
  end.

Definition ops_size (ops : list WriteOp) : Z :=
  fold_right (fun op acc => op_size op + acc) 0 ops.

(** The unknown fields the size and the serializer take into account. *)
Definition kept_unknown (fs : list Field) : list Field :=
  if GetProto3PreserveUnknownsDefault then fs else [].

(** [size_t Request::ByteSizeLong() const] *)
Definition Request_ByteSizeLong (m : Request) : Z :=
  let total_size := 0 in
  let total_size :=
    total_size + unknown_size (kept_unknown (Request_unknown_fields m)) in
  let total_size :=
    if 0 <? Z.of_nat (List.length (nonce m))
    then total_size + (1 + BytesSize (nonce m)) else total_size in
  let total_size :=
    if version m =? 0 then total_size
    else total_size + (1 + UInt32Size (version m)) in
  total_size.

(** [size_t Response::ByteSizeLong() const] *)
Definition Response_ByteSizeLong (m : Response) : Z :=
  let total_size := 0 in
  let total_size :=
    total_size + unknown_size (kept_unknown (Response_unknown_fields m)) in
  let total_size :=
    if 0 <? Z.of_nat (List.length (username m))
    then total_size + (1 + StringSize (username m)) else total_size in
  let total_size :=
    if 0 <? Z.of_nat (List.length (key m))
    then total_size + (1 + BytesSize (key m)) else total_size in
  let total_size :=
    if session_type m =? 0 then total_size
    else total_size + (1 + EnumSize (session_type m)) in
  total_size.

(** [size_t Result::ByteSizeLong() const] *)
Definition Result_ByteSizeLong (m : Result) : Z :=
  let total_size := 0 in
  let total_size :=
    total_size + unknown_size (kept_unknown (Result_unknown_fields m)) in
  let total_size :=
    if status m =? 0 then total_size
    else total_size + (1 + EnumSize (status m)) in
  total_size.

(** A field the parser of a message with the given table keeps among the
    unknown fields: its tag is none of the table's and not 0, and
    [SkipField] accepts it. *)
Definition preserved (fields : list FieldDesc) (f : Field) : Prop :=
  unlisted_tag fields (tag f) /\ tag f <> 0 /\ SkipField f = true.

(** A [Request] as the parser builds it. *)
Definition Request_wf (m : Request) : Prop :=
  0 <= version m < 2 ^ 32 /\
  Forall (preserved Request_fields) (Request_unknown_fields m).

(** A [Response] as the parser builds it. *)
Definition Response_wf (m : Response) : Prop :=
  - 2 ^ 31 <= session_type m < 2 ^ 31 /\
  IsStructurallyValidUTF8 (username m) = true /\
  Forall (preserved Response_fields) (Response_unknown_fields m).

(** A [Result] as the parser builds it. *)
Definition Result_wf (m : Result) : Prop :=
  - 2 ^ 31 <= status m < 2 ^ 31 /\
  Forall (preserved Result_fields) (Result_unknown_fields m).

(** ** Properties of the enumerations *)

(** Case analysis on the scrutinee of the compiled [switch] in [H]. *)
Ltac destruct_match_arg H :=
  match type of H with
  | match ?p with _ => _ end = true => destruct p; try discriminate H
  end.

Lemma SessionType_IsValid_iff v :
  SessionType_IsValid v = true <-> v = 0 \/ v = 1 \/ v = 2 \/ v = 4.
Proof.
  split.
  - intro H. destruct v as [|p|p]; cbn in H; try discriminate H; auto.
    repeat destruct_match_arg H; auto.
  - intros [->|[->|[->| ->]]]; reflexivity.
Qed.

Lemma Status_IsValid_iff v :
  Status_IsValid v = true <-> 0 <= v <= 3.
Proof.
  split.
  - intro H. destruct v as [|p|p]; cbn in H; try discriminate H; try lia.
    repeat destruct_match_arg H; lia.
  - intros H.
    assert (Hv : v = 0 \/ v = 1 \/ v = 2 \/ v = 3) by lia.
    destruct Hv as [->|[->|[->| ->]]]; reflexivity.
Qed.

Lemma single_bit_pos v : single_bit v -> 0 < v.
Proof. intros [k [Hk ->]]. apply Z.pow_pos_nonneg; lia. Qed.

Lemma valid_single_bit v :
  SessionType_IsValid v = true -> single_bit v -> v = 1 \/ v = 2 \/ v = 4.
Proof.
  intros Hv Hb. apply single_bit_pos in Hb.
  apply SessionType_IsValid_iff in Hv. lia.
Qed.

(** Two of the five session types of the specification that an encoding
    sends to the same value are the same type; with only three values to
    go to, an injective encoding has nowhere to put five. *)
Ltac collide Hinj :=
  match goal with
  | Ha : ?enc ?a = ?v, Hb : ?enc ?b = ?v |- _ =>
      lazymatch a with b => fail | _ => idtac end;
      let E := fresh "E" in
      assert (E : a = b) by (apply Hinj; congruence); discriminate E
  end.

(** C6, as the specification states it, fails: no assignment of distinct
    mask bits to the five session types it names makes
    [SessionType_IsValid] accept exactly those bits and zero. *)
Lemma SessionType_IsValid_not_five_types :
  ~ exists enc : SpecSessionType -> Z,
      (forall a b, enc a = enc b -> a = b) /\
      (forall t, single_bit (enc t)) /\
      (forall v, SessionType_IsValid v = true <-> v = 0 \/ exists t, enc t = v).
Proof.
  intros [enc [Hinj [Hbit Hval]]].
  assert (Hthree : forall t, enc t = 1 \/ enc t = 2 \/ enc t = 4).
  { intro t. apply valid_single_bit; [|apply Hbit].
    apply Hval. right. exists t. reflexivity. }
  destruct (Hthree DESKTOP_MANAGE) as [H1|[H1|H1]];
  destruct (Hthree DESKTOP_VIEW) as [H2|[H2|H2]];
  destruct (Hthree FILE_TRANSFER) as [H3|[H3|H3]];
  destruct (Hthree ROUTER_SESSION_MANAGER) as [H4|[H4|H4]];
  collide Hinj.
Qed.

(** C6, as amended.  [SessionType_IsValid] accepts exactly 0, 1, 2 and 4 and
    rejects every other integer: the accepted values are non-negative, the
    three that are not zero are single bits, and two different accepted
    values share no bit. *)
Theorem SessionType_IsValid_spec :
  (forall v, SessionType_IsValid v = true <-> v = 0 \/ v = 1 \/ v = 2 \/ v = 4) /\
  (forall v, SessionType_IsValid v = true -> 0 <= v) /\
  (forall v, SessionType_IsValid v = true -> v <> 0 -> single_bit v) /\
  (forall a b, SessionType_IsValid a = true -> SessionType_IsValid b = true ->
               a <> b -> Z.land a b = 0).
Proof.
  split; [exact SessionType_IsValid_iff|].
  split; [intros v H; apply SessionType_IsValid_iff in H; lia|].
  split.
  - intros v H Hnz. apply SessionType_IsValid_iff in H.
    destruct H as [->|[->|[->| ->]]]; [congruence| | |].
    + exists 0; split; [lia|reflexivity].
    + exists 1; split; [lia|reflexivity].
    + exists 2; split; [lia|reflexivity].
  - intros a b Ha Hb Hab.
    apply SessionType_IsValid_iff in Ha. apply SessionType_IsValid_iff in Hb.
    destruct Ha as [->|[->|[->| ->]]]; destruct Hb as [->|[->|[->| ->]]];
      try reflexivity; congruence.
Qed.

(** ** Properties of the messages *)

(** A serializer writes only fields of the given table. *)
Definition writes_only (fields : list FieldDesc) (ops : list WriteOp) : Prop :=
  forall op sig, In op ops -> op_signature op = Some sig ->
                 In sig (signatures fields).

(** A field on the wire that the given table does not list. *)
Definition unlisted (fields : list FieldDesc) (f : Field) : Prop :=
  0 <= tag f /\ ~ In (tag f) (known_tags fields).

Lemma uint8_of_small t : 0 <= t -> (t <=? 127) = true -> uint8_of t = t.
Proof.
  intros H0 H. apply Z.leb_le in H. unfold uint8_of.
  change 255 with (Z.ones 8). rewrite Z.land_ones by lia.
  apply Z.mod_small. lia.
Qed.

Lemma switch2_default (T : Type) (n : Z) (a b u : T) :
  n <> 1 -> n <> 2 ->
  match n with 1 => a | 2 => b | _ => u end = u.
Proof.
  intros H1 H2. destruct n as [|p|p]; try reflexivity.
  destruct p as [[p|p|]|[p|p|]|]; try reflexivity; congruence.
Qed.

Lemma switch3_default (T : Type) (n : Z) (a b c u : T) :
  n <> 1 -> n <> 2 -> n <> 3 ->
  match n with 1 => a | 2 => b | 3 => c | _ => u end = u.
Proof.
  intros H1 H2 H3. destruct n as [|p|p]; try reflexivity.
  destruct p as [[p|p|]|[p|p|]|]; try reflexivity; congruence.
Qed.

Lemma switch1_default (T : Type) (n : Z) (a u : T) :
  n <> 1 ->
  match n with 1 => a | _ => u end = u.
Proof.
  intros H1. destruct n as [|p|p]; try reflexivity.
  destruct p as [p|p|]; try reflexivity; congruence.
Qed.

Ltac in_ops H :=
  repeat (apply in_app_or in H; destruct H as [H|H]);
  repeat match type of H with
         | In _ (if ?c then _ else _) => destruct c
         end;
  cbn in H; repeat (destruct H as [H|H]); try contradiction; subst.

Lemma Request_writes_only m :
  writes_only Request_fields (Request_SerializeWithCachedSizes m).
Proof.
  intros op sig Hin Hsig. unfold Request_SerializeWithCachedSizes in Hin.
  in_ops Hin; cbn in Hsig; inversion Hsig; subst; cbn; auto.
Qed.

Lemma Response_writes_only m :
  writes_only Response_fields (Response_SerializeWithCachedSizes m).
Proof.
  intros op sig Hin Hsig. unfold Response_SerializeWithCachedSizes in Hin.
  in_ops Hin; cbn in Hsig; inversion Hsig; subst; cbn; auto.
Qed.

Lemma Result_writes_only m :
  writes_only Result_fields (Result_SerializeWithCachedSizes m).
Proof.
  intros op sig Hin Hsig. unfold Result_SerializeWithCachedSizes in Hin.
  in_ops Hin; cbn in Hsig; inversion Hsig; subst; cbn; auto.
Qed.

Lemma nonempty_length (b : list byte) :
  b <> [] -> (0 <? Z.of_nat (List.length b)) = true.
Proof. destruct b; [congruence|]. intros _. cbn [List.length]. apply Z.ltb_lt. lia. Qed.

Lemma Request_unlisted f rest m :
  unlisted Request_fields f ->
  Request_MergePartialFromCodedStream (f :: rest) m =
  if tag f =? 0 then Some m
  else if SkipField f
       then Request_MergePartialFromCodedStream rest (Request_add_unknown f m)
       else None.
Proof.
  intros [H0 Hnot]. cbn [Request_MergePartialFromCodedStream].
  unfold Request_add_unknown.
  destruct (tag f <=? 127) eqn:Hc; [|reflexivity].
  rewrite (uint8_of_small _ H0 Hc).
  destruct (Z.eq_dec (GetTagFieldNumber (tag f)) 1) as [E|N1].
  { rewrite E. destruct (Z.eqb_spec (tag f) 8) as [E8|]; [|reflexivity].
    exfalso. apply Hnot. rewrite E8. cbn. auto. }
  destruct (Z.eq_dec (GetTagFieldNumber (tag f)) 2) as [E|N2].
  { rewrite E. destruct (Z.eqb_spec (tag f) 18) as [E8|]; [|reflexivity].
    exfalso. apply Hnot. rewrite E8. cbn. auto. }
  apply switch2_default; assumption.
Qed.

Lemma Response_unlisted f rest m :
  unlisted Response_fields f ->
  Response_MergePartialFromCodedStream (f :: rest) m =
  if tag f =? 0 then Some m
  else if SkipField f
       then Response_MergePartialFromCodedStream rest (Response_add_unknown f m)
       else None.
Proof.
  intros [H0 Hnot]. cbn [Response_MergePartialFromCodedStream].
  unfold Response_add_unknown.
  destruct (tag f <=? 127) eqn:Hc; [|reflexivity].
  rewrite (uint8_of_small _ H0 Hc).
  destruct (Z.eq_dec (GetTagFieldNumber (tag f)) 1) as [E|N1].
  { rewrite E. destruct (Z.eqb_spec (tag f) 8) as [E8|]; [|reflexivity].
    exfalso. apply Hnot. rewrite E8. cbn. auto. }
  destruct (Z.eq_dec (GetTagFieldNumber (tag f)) 2) as [E|N2].
  { rewrite E. destruct (Z.eqb_spec (tag f) 18) as [E8|]; [|reflexivity].
    exfalso. apply Hnot. rewrite E8. cbn. auto. }
  destruct (Z.eq_dec (GetTagFieldNumber (tag f)) 3) as [E|N3].
  { rewrite E. destruct (Z.eqb_spec (tag f) 26) as [E8|]; [|reflexivity].
    exfalso. apply Hnot. rewrite E8. cbn. auto. }
  apply switch3_default; assumption.
Qed.

Lemma Result_unlisted f rest m :
  unlisted Result_fields f ->
  Result_MergePartialFromCodedStream (f :: rest) m =
  if tag f =? 0 then Some m
  else if SkipField f
       then Result_MergePartialFromCodedStream rest (Result_add_unknown f m)
       else None.
Proof.
  intros [H0 Hnot]. cbn [Result_MergePartialFromCodedStream].
  unfold Result_add_unknown.
  destruct (tag f <=? 127) eqn:Hc; [|reflexivity].
  rewrite (uint8_of_small _ H0 Hc).
  destruct (Z.eq_dec (GetTagFieldNumber (tag f)) 1) as [E|N1].
  { rewrite E. destruct (Z.eqb_spec (tag f) 8) as [E8|]; [|reflexivity].
    exfalso. apply Hnot. rewrite E8. cbn. auto. }
  apply switch1_default; assumption.
Qed.

(** ** Reading back what was written *)

Lemma to_uint32_small v : 0 <= v < 2 ^ 32 -> to_uint32 v = v.
Proof. intro H. unfold to_uint32. apply Z.mod_small. exact H. Qed.

Lemma to_int32_of_uint64 v :
  - 2 ^ 31 <= v < 2 ^ 31 -> to_int32 (to_uint64 v) = v.
Proof.
  intro H. unfold to_int32, to_uint32, to_uint64.
  rewrite Z.mod_mod_divide by (exists (2 ^ 32); reflexivity).
  destruct (Z_lt_le_dec v 0) as [Hneg|Hpos].
  - assert (E : v mod 2 ^ 32 = v + 2 ^ 32).
    { symmetry. apply (Zmod_unique v (2 ^ 32) (-1)); lia. }
    rewrite E. destruct (Z.ltb_spec (v + 2 ^ 32) (2 ^ 31)); lia.
  - rewrite Z.mod_small by lia.
    destruct (Z.ltb_spec v (2 ^ 31)); lia.
Qed.

Lemma raw_unknown_empty : wire_of (raw_unknown []) = [].
Proof.
  unfold raw_unknown, wire_of.
  destruct GetProto3PreserveUnknownsDefault; reflexivity.
Qed.

Lemma wire_of_app a b : wire_of (a ++ b) = wire_of a ++ wire_of b.
Proof. unfold wire_of. apply flat_map_app. Qed.

(** A [Request] without unknown fields and with a 32-bit version is read
    back from what [SerializeWithCachedSizes] wrote. *)
Lemma Request_roundtrip m :
  0 <= version m < 2 ^ 32 ->
  Request_unknown_fields m = [] ->
  Request_MergePartialFromCodedStream
    (wire_of (Request_SerializeWithCachedSizes m)) Request_Clear = Some m.
Proof.
  destruct m as [v n u]. cbn [version nonce Request_unknown_fields].
  intros Hv ->. unfold Request_SerializeWithCachedSizes.
  cbn [version nonce Request_unknown_fields].
  rewrite !wire_of_app, raw_unknown_empty, app_nil_r.
  destruct (Z.eqb_spec v 0) as [->|Hnz]; destruct n as [|c n]; cbn.
  - reflexivity.
  - reflexivity.
  - rewrite to_uint32_small by exact Hv. reflexivity.
  - rewrite to_uint32_small by exact Hv. reflexivity.
Qed.

(** A [Response] without unknown fields, with a 32-bit session type and a
    user name in UTF-8, is read back from what was written. *)
Lemma Response_roundtrip m :
  - 2 ^ 31 <= session_type m < 2 ^ 31 ->
  IsStructurallyValidUTF8 (username m) = true ->
  Response_unknown_fields m = [] ->
  Response_MergePartialFromCodedStream
    (wire_of (Response_SerializeWithCachedSizes m)) Response_Clear = Some m.
Proof.
  destruct m as [t n k u].
  cbn [session_type username key Response_unknown_fields].
  intros Ht Hutf ->. unfold Response_SerializeWithCachedSizes.
  cbn [session_type username key Response_unknown_fields].
  rewrite !wire_of_app, raw_unknown_empty, app_nil_r.
  destruct (Z.eqb_spec t 0) as [->|Hnz]; destruct n as [|c n];
    destruct k as [|d k]; cbn;
    rewrite ?Hutf, ?to_int32_of_uint64 by exact Ht; reflexivity.
Qed.

(** A [Result] without unknown fields and with a 32-bit status is read back
    from what was written. *)
Lemma Result_roundtrip m :
  - 2 ^ 31 <= status m < 2 ^ 31 ->
  Result_unknown_fields m = [] ->
  Result_MergePartialFromCodedStream
    (wire_of (Result_SerializeWithCachedSizes m)) Result_Clear = Some m.
Proof.
  destruct m as [t u]. cbn [status Result_unknown_fields].
  intros Ht ->. unfold Result_SerializeWithCachedSizes.
  cbn [status Result_unknown_fields].
  rewrite !wire_of_app, raw_unknown_empty, app_nil_r.
  destruct (Z.eqb_spec t 0) as [->|Hnz]; cbn;
    rewrite ?to_int32_of_uint64 by exact Ht; reflexivity.
Qed.

(** ** Merging, copying, and reading back with unknown fields *)

Lemma to_uint32_range v : 0 <= to_uint32 v < 2 ^ 32.
Proof. unfold to_uint32. apply Z.mod_pos_bound. reflexivity. Qed.

Lemma to_int32_range v : - 2 ^ 31 <= to_int32 v < 2 ^ 31.
Proof.
  unfold to_int32. pose proof (to_uint32_range v) as H.
  destruct (Z.ltb_spec (to_uint32 v) (2 ^ 31)); lia.
Qed.

Lemma listed_or_unlisted fields t :
  0 <= t -> In t (known_tags fields) \/ unlisted_tag fields t.
Proof.
  intro H. destruct (In_dec Z.eq_dec t (known_tags fields)); [left|right];
    [assumption|split; assumption].
Qed.

Lemma Request_skip_unknowns fs : forall rest m,
  Forall (preserved Request_fields) fs ->
  Request_MergePartialFromCodedStream (fs ++ rest) m =
  Request_MergePartialFromCodedStream rest
    (mkRequest (version m) (nonce m) (Request_unknown_fields m ++ fs)).
Proof.
  induction fs as [|f fs IH]; intros rest m Hfs.
  - cbn [app]. rewrite app_nil_r. destruct m; reflexivity.
  - inversion Hfs as [|f' fs' [Hun [Hnz Hskip]] Hrest]; subst.
    cbn [app]. rewrite (Request_unlisted f (fs ++ rest) m Hun).
    apply Z.eqb_neq in Hnz. rewrite Hnz, Hskip.
    rewrite (IH rest _ Hrest). unfold Request_add_unknown. cbn.
    rewrite <- app_assoc. reflexivity.
Qed.

Lemma Response_skip_unknowns fs : forall rest m,
  Forall (preserved Response_fields) fs ->
  Response_MergePartialFromCodedStream (fs ++ rest) m =
  Response_MergePartialFromCodedStream rest
    (mkResponse (session_type m) (username m) (key m)
                (Response_unknown_fields m ++ fs)).
Proof.
  induction fs as [|f fs IH]; intros rest m Hfs.
  - cbn [app]. rewrite app_nil_r. destruct m; reflexivity.
  - inversion Hfs as [|f' fs' [Hun [Hnz Hskip]] Hrest]; subst.
    cbn [app]. rewrite (Response_unlisted f (fs ++ rest) m Hun).
    apply Z.eqb_neq in Hnz. rewrite Hnz, Hskip.
    rewrite (IH rest _ Hrest). unfold Response_add_unknown. cbn.
    rewrite <- app_assoc. reflexivity.
Qed.

Lemma Result_skip_unknowns fs : forall rest m,
  Forall (preserved Result_fields) fs ->
  Result_MergePartialFromCodedStream (fs ++ rest) m =
  Result_MergePartialFromCodedStream rest
    (mkResult (status m) (Result_unknown_fields m ++ fs)).
Proof.
  induction fs as [|f fs IH]; intros rest m Hfs.
  - cbn [app]. rewrite app_nil_r. destruct m; reflexivity.
  - inversion Hfs as [|f' fs' [Hun [Hnz Hskip]] Hrest]; subst.
    cbn [app]. rewrite (Result_unlisted f (fs ++ rest) m Hun).
    apply Z.eqb_neq in Hnz. rewrite Hnz, Hskip.
    rewrite (IH rest _ Hrest). unfold Result_add_unknown. cbn.
    rewrite <- app_assoc. reflexivity.
Qed.

Lemma wire_of_raw fs : wire_of [WriteRaw fs] = fs.
Proof. unfold wire_of. cbn. apply app_nil_r. Qed.

(** Parsing what a serializer wrote, in front of anything, is merging the
    written message and going on. *)
Lemma Request_parse_serialized b :
  GetProto3PreserveUnknownsDefault = true ->
  Request_wf b ->
  forall rest m,
    Request_MergePartialFromCodedStream
      (wire_of (Request_SerializeWithCachedSizes b) ++ rest) m =
    Request_MergePartialFromCodedStream rest (Request_MergeFrom m b).
Proof.
  intros HG [Hv Hu] rest m. destruct b as [v n u].
  cbn [version nonce Request_unknown_fields] in *.
  unfold Request_SerializeWithCachedSizes, Request_MergeFrom, raw_unknown.
  cbn [version nonce Request_unknown_fields].
  rewrite HG, !wire_of_app, wire_of_raw, <- !app_assoc.
  destruct (Z.eqb_spec v 0) as [->|Hnz]; destruct n as [|c n];
    cbn -[to_uint32 Request_MergePartialFromCodedStream];
    cbn [Request_MergePartialFromCodedStream];
    cbn -[to_uint32 Request_MergePartialFromCodedStream];
    rewrite ?(to_uint32_small v Hv), (Request_skip_unknowns u rest _ Hu);
    reflexivity.
Qed.

Lemma Response_parse_serialized b :
  GetProto3PreserveUnknownsDefault = true ->
  Response_wf b ->
  forall rest m,
    Response_MergePartialFromCodedStream
      (wire_of (Response_SerializeWithCachedSizes b) ++ rest) m =
    Response_MergePartialFromCodedStream rest (Response_MergeFrom m b).
Proof.
  intros HG [Ht [Hutf Hu]] rest m. destruct b as [t n k u].
  cbn [session_type username key Response_unknown_fields] in *.
  unfold Response_SerializeWithCachedSizes, Response_MergeFrom, raw_unknown.
  cbn [session_type username key Response_unknown_fields].
  rewrite HG, !wire_of_app, wire_of_raw, <- !app_assoc.
  destruct (Z.eqb_spec t 0) as [->|Hnz]; destruct n as [|c n];
    destruct k as [|d k];
    cbn -[to_int32 to_uint64 Response_MergePartialFromCodedStream];
    cbn [Response_MergePartialFromCodedStream];
    cbn -[to_int32 to_uint64 Response_MergePartialFromCodedStream];
    rewrite ?Hutf, ?(to_int32_of_uint64 t Ht),
      (Response_skip_unknowns u rest _ Hu);
    reflexivity.
Qed.

Lemma Result_parse_serialized b :
  GetProto3PreserveUnknownsDefault = true ->
  Result_wf b ->
  forall rest m,
    Result_MergePartialFromCodedStream
      (wire_of (Result_SerializeWithCachedSizes b) ++ rest) m =
    Result_MergePartialFromCodedStream rest (Result_MergeFrom m b).
Proof.
  intros HG [Ht Hu] rest m. destruct b as [t u].
  cbn [status Result_unknown_fields] in *.
  unfold Result_SerializeWithCachedSizes, Result_MergeFrom, raw_unknown.
  cbn [status Result_unknown_fields].
  rewrite HG, !wire_of_app, wire_of_raw, <- !app_assoc.
  destruct (Z.eqb_spec t 0) as [->|Hnz];
    cbn -[to_int32 to_uint64 Result_MergePartialFromCodedStream];
    cbn [Result_MergePartialFromCodedStream];
    cbn -[to_int32 to_uint64 Result_MergePartialFromCodedStream];
    rewrite ?(to_int32_of_uint64 t Ht), (Result_skip_unknowns u rest _ Hu);
    reflexivity.
Qed.

(** What a parser builds from a cleared message is well formed. *)
Lemma Request_parse_wf input : forall m m',
  Forall (fun f => 0 <= tag f) input ->
  Request_wf m ->
  Request_MergePartialFromCodedStream input m = Some m' ->
  Request_wf m'.
Proof.
  induction input as [|f rest IH]; intros m m' Htags Hwf H.
  - cbn in H. injection H as <-. exact Hwf.
  - inversion Htags as [|f0 r0 Hf Hrest]; subst.
    destruct (listed_or_unlisted Request_fields (tag f) Hf) as [Hin|Hun].
    + destruct f as [t pl]. cbn in Hin. cbn [tag] in *.
      destruct Hin as [<-|[<-|[]]];
        cbn -[to_uint32] in H; destruct pl; try discriminate H;
        apply (IH _ _ Hrest) in H; try exact H;
        destruct Hwf as [Hv Hu]; split; cbn; auto using to_uint32_range.
    + rewrite (Request_unlisted f rest m Hun) in H.
      destruct (tag f =? 0) eqn:Hz; [injection H as <-; exact Hwf|].
      destruct (SkipField f) eqn:Hs; [|discriminate H].
      apply (IH _ _ Hrest) in H; [exact H|].
      destruct Hwf as [Hv Hu]. split; [exact Hv|].
      unfold Request_add_unknown. cbn. apply Forall_app. split; [exact Hu|].
      constructor; [|constructor].
      split; [exact Hun|]. split; [apply Z.eqb_neq; exact Hz|exact Hs].
Qed.

Lemma Response_parse_wf input : forall m m',
  Forall (fun f => 0 <= tag f) input ->
  Response_wf m ->
  Response_MergePartialFromCodedStream input m = Some m' ->
  Response_wf m'.
Proof.
  induction input as [|f rest IH]; intros m m' Htags Hwf H.
  - cbn in H. injection H as <-. exact Hwf.
  - inversion Htags as [|f0 r0 Hf Hrest]; subst.
    destruct (listed_or_unlisted Response_fields (tag f) Hf) as [Hin|Hun].
    + destruct f as [t pl]. cbn in Hin. cbn [tag] in *.
      destruct Hwf as [Ht [Hutf Hu]].
      destruct Hin as [<-|[<-|[<-|[]]]];
        cbn -[to_int32] in H; destruct pl as [v|v|b|b|v];
        try discriminate H.
      * apply (IH _ _ Hrest) in H; [exact H|].
        split; [apply to_int32_range|split; assumption].
      * destruct (IsStructurallyValidUTF8 b) eqn:Hb; [|discriminate H].
        apply (IH _ _ Hrest) in H; [exact H|].
        split; [exact Ht|split; assumption].
      * apply (IH _ _ Hrest) in H; [exact H|].
        split; [exact Ht|split; assumption].
    + rewrite (Response_unlisted f rest m Hun) in H.
      destruct (tag f =? 0) eqn:Hz; [injection H as <-; exact Hwf|].
      destruct (SkipField f) eqn:Hs; [|discriminate H].
      apply (IH _ _ Hrest) in H; [exact H|].
      destruct Hwf as [Ht [Hutf Hu]]. split; [exact Ht|]. split; [exact Hutf|].
      unfold Response_add_unknown. cbn. apply Forall_app. split; [exact Hu|].
      constructor; [|constructor].
      split; [exact Hun|]. split; [apply Z.eqb_neq; exact Hz|exact Hs].
Qed.

Lemma Result_parse_wf input : forall m m',
  Forall (fun f => 0 <= tag f) input ->
  Result_wf m ->
  Result_MergePartialFromCodedStream input m = Some m' ->
  Result_wf m'.
Proof.
  induction input as [|f rest IH]; intros m m' Htags Hwf H.
  - cbn in H. injection H as <-. exact Hwf.
  - inversion Htags as [|f0 r0 Hf Hrest]; subst.
    destruct (listed_or_unlisted Result_fields (tag f) Hf) as [Hin|Hun].
    + destruct f as [t pl]. cbn in Hin. cbn [tag] in *.
      destruct Hwf as [Ht Hu].
      destruct Hin as [<-|[]];
        cbn -[to_int32] in H; destruct pl; try discriminate H.
      apply (IH _ _ Hrest) in H; [exact H|].
      split; [apply to_int32_range|assumption].
    + rewrite (Result_unlisted f rest m Hun) in H.
      destruct (tag f =? 0) eqn:Hz; [injection H as <-; exact Hwf|].
      destruct (SkipField f) eqn:Hs; [|discriminate H].
      apply (IH _ _ Hrest) in H; [exact H|].
      destruct Hwf as [Ht Hu]. split; [exact Ht|].
      unfold Result_add_unknown. cbn. apply Forall_app. split; [exact Hu|].
      constructor; [|constructor].
      split; [exact Hun|]. split; [apply Z.eqb_neq; exact Hz|exact Hs].
Qed.

Lemma Request_MergeFrom_Clear m : Request_MergeFrom Request_Clear m = m.
Proof.
  destruct m as [v n u]. unfold Request_MergeFrom, Request_Clear. cbn.
  destruct (Z.eqb_spec v 0) as [->|_]; destruct n; reflexivity.
Qed.

Lemma Response_MergeFrom_Clear m : Response_MergeFrom Response_Clear m = m.
Proof.
  destruct m as [t n k u]. unfold Response_MergeFrom, Response_Clear. cbn.
  destruct (Z.eqb_spec t 0) as [->|_]; destruct n; destruct k; reflexivity.
Qed.

Lemma Result_MergeFrom_Clear m : Result_MergeFrom Result_Clear m = m.
Proof.
  destruct m as [t u]. unfold Result_MergeFrom, Result_Clear. cbn.
  destruct (Z.eqb_spec t 0) as [->|_]; reflexivity.
Qed.



Lemma Request_Clear_wf : Request_wf Request_Clear.
Proof. split; [cbn; lia|constructor]. Qed.

(** With unknown fields preserved, a message a parser accepted is
    serialized to fields from which the same message is parsed again, whatever
    the accepted input was: fields in any order, repeated, of unknown numbers
    or of the wrong wire type. *)
Theorem accepted_input_is_reserialized_faithfully :
  GetProto3PreserveUnknownsDefault = true ->
  IsStructurallyValidUTF8 [] = true ->
  (forall input m,
      Forall (fun f => 0 <= tag f) input ->
      Request_MergePartialFromCodedStream input Request_Clear = Some m ->
      Request_MergePartialFromCodedStream
        (wire_of (Request_SerializeWithCachedSizes m)) Request_Clear = Some m) /\
  (forall input m,
      Forall (fun f => 0 <= tag f) input ->
      Response_MergePartialFromCodedStream input Response_Clear = Some m ->
      Response_MergePartialFromCodedStream
        (wire_of (Response_SerializeWithCachedSizes m)) Response_Clear
      = Some m) /\
  (forall input m,
      Forall (fun f => 0 <= tag f) input ->
      Result_MergePartialFromCodedStream input Result_Clear = Some m ->
      Result_MergePartialFromCodedStream
        (wire_of (Result_SerializeWithCachedSizes m)) Result_Clear = Some m).
Proof.
  intros HG Hempty. split; [|split]; intros input m Htags H.
  - assert (Hwf : Request_wf m)
      by (apply (Request_parse_wf input _ _ Htags Request_Clear_wf H)).
    rewrite <- (app_nil_r (wire_of _)), (Request_parse_serialized m HG Hwf).
    cbn. rewrite Request_MergeFrom_Clear. reflexivity.
  - assert (Hwf : Response_wf m).
    { apply (Response_parse_wf input _ _ Htags) in H; [exact H|].
      split; [cbn; lia|split; [exact Hempty|constructor]]. }
    rewrite <- (app_nil_r (wire_of _)), (Response_parse_serialized m HG Hwf).
    cbn. rewrite Response_MergeFrom_Clear. reflexivity.
  - assert (Hwf : Result_wf m).
    { apply (Result_parse_wf input _ _ Htags) in H; [exact H|].
      split; [cbn; lia|constructor]. }
    rewrite <- (app_nil_r (wire_of _)), (Result_parse_serialized m HG Hwf).
    cbn. rewrite Result_MergeFrom_Clear. reflexivity.
Qed.

(** [MergeFrom] is associative with the cleared message as unit on both
    sides, and [CopyFrom] leaves an exact copy of its argument although
    [MergeFrom] skips every field that has its default value. *)
Theorem MergeFrom_laws :
  ((forall a, Request_MergeFrom Request_Clear a = a /\
              Request_MergeFrom a Request_Clear = a) /\
   (forall a b c, Request_MergeFrom (Request_MergeFrom a b) c
                  = Request_MergeFrom a (Request_MergeFrom b c)) /\
   (forall this from same_object,
       (same_object = true -> this = from) ->
       Request_CopyFrom this from same_object = from)) /\
  ((forall a, Response_MergeFrom Response_Clear a = a /\
              Response_MergeFrom a Response_Clear = a) /\
   (forall a b c, Response_MergeFrom (Response_MergeFrom a b) c
                  = Response_MergeFrom a (Response_MergeFrom b c)) /\
   (forall this from same_object,
       (same_object = true -> this = from) ->
       Response_CopyFrom this from same_object = from)) /\
  ((forall a, Result_MergeFrom Result_Clear a = a /\
              Result_MergeFrom a Result_Clear = a) /\
   (forall a b c, Result_MergeFrom (Result_MergeFrom a b) c
                  = Result_MergeFrom a (Result_MergeFrom b c)) /\
   (forall this from same_object,
       (same_object = true -> this = from) ->
       Result_CopyFrom this from same_object = from)).
Proof.
  split; [|split]; (split; [|split]).
  - intro a. split; [apply Request_MergeFrom_Clear|].
    destruct a. unfold Request_MergeFrom. cbn. rewrite app_nil_r. reflexivity.
  - intros [v1 n1 u1] [v2 n2 u2] [v3 n3 u3]. unfold Request_MergeFrom. cbn.
    rewrite app_assoc.
    destruct (Z.eqb_spec v3 0); destruct n3; cbn; try reflexivity;
      destruct (Z.eqb_spec v3 0); congruence.
  - intros this from [|] H; unfold Request_CopyFrom;
      [apply H; reflexivity|apply Request_MergeFrom_Clear].
  - intro a. split; [apply Response_MergeFrom_Clear|].
    destruct a. unfold Response_MergeFrom. cbn. rewrite app_nil_r.
    reflexivity.
  - intros [v1 n1 k1 u1] [v2 n2 k2 u2] [v3 n3 k3 u3].
    unfold Response_MergeFrom. cbn. rewrite app_assoc.
    destruct (Z.eqb_spec v3 0); destruct n3; destruct k3; cbn;
      try reflexivity; destruct (Z.eqb_spec v3 0); congruence.
  - intros this from [|] H; unfold Response_CopyFrom;
      [apply H; reflexivity|apply Response_MergeFrom_Clear].
  - intro a. split; [apply Result_MergeFrom_Clear|].
    destruct a. unfold Result_MergeFrom. cbn. rewrite app_nil_r. reflexivity.
  - intros [v1 u1] [v2 u2] [v3 u3]. unfold Result_MergeFrom. cbn.
    rewrite app_assoc.
    destruct (Z.eqb_spec v3 0); cbn; try reflexivity;
      destruct (Z.eqb_spec v3 0); congruence.
  - intros this from [|] H; unfold Result_CopyFrom;
      [apply H; reflexivity|apply Result_MergeFrom_Clear].
Qed.

(** ** Sizes *)

Lemma ops_size_app a b : ops_size (a ++ b) = ops_size a + ops_size b.
Proof.
  unfold ops_size. induction a as [|op a IH]; cbn [app fold_right];
    [reflexivity|].
  rewrite IH. lia.
Qed.

Lemma written_tag_is_one_byte fields ops :
  writes_only fields ops ->
  Forall (fun t => 0 < t < 128) (known_tags fields) ->
  forall op n ty,
    In op ops -> op_signature op = Some (n, ty) ->
    0 < MakeTag n (WireTypeForFieldType ty) < 128.
Proof.
  intros Hw Hall op n ty Hin Hsig.
  specialize (Hw op (n, ty) Hin Hsig).
  unfold signatures in Hw. apply in_map_iff in Hw.
  destruct Hw as [d [Hd Hind]]. injection Hd as <- <-.
  rewrite Forall_forall in Hall. apply Hall.
  unfold known_tags. apply in_map_iff. exists d. auto.
Qed.

(** [ByteSizeLong] counts exactly what [SerializeWithCachedSizes] writes:
    for each field written, one byte of tag and the size of its value, and
    the unknown fields that are kept.  The one byte is right: every tag these
    serializers write is below 128. *)
Theorem ByteSizeLong_counts_what_is_written :
  (forall m,
      Request_ByteSizeLong m = ops_size (Request_SerializeWithCachedSizes m) /\
      forall op n ty,
        In op (Request_SerializeWithCachedSizes m) ->
        op_signature op = Some (n, ty) ->
        0 < MakeTag n (WireTypeForFieldType ty) < 128) /\
  (forall m,
      Response_ByteSizeLong m
      = ops_size (Response_SerializeWithCachedSizes m) /\
      forall op n ty,
        In op (Response_SerializeWithCachedSizes m) ->
        op_signature op = Some (n, ty) ->
        0 < MakeTag n (WireTypeForFieldType ty) < 128) /\
  (forall m,
      Result_ByteSizeLong m = ops_size (Result_SerializeWithCachedSizes m) /\
      forall op n ty,
        In op (Result_SerializeWithCachedSizes m) ->
        op_signature op = Some (n, ty) ->
        0 < MakeTag n (WireTypeForFieldType ty) < 128).
Proof.
  split; [|split]; intro m; split.
  - unfold Request_ByteSizeLong, Request_SerializeWithCachedSizes,
      raw_unknown, kept_unknown.
    rewrite !ops_size_app.
    destruct (version m =? 0);
      destruct (0 <? Z.of_nat (List.length (nonce m))); cbn; lia.
  - apply (written_tag_is_one_byte Request_fields);
      [apply Request_writes_only|].
    repeat constructor.
  - unfold Response_ByteSizeLong, Response_SerializeWithCachedSizes,
      raw_unknown, kept_unknown.
    rewrite !ops_size_app.
    destruct (session_type m =? 0);
      destruct (0 <? Z.of_nat (List.length (username m)));
      destruct (0 <? Z.of_nat (List.length (key m))); cbn; lia.
  - apply (written_tag_is_one_byte Response_fields);
      [apply Response_writes_only|].
    repeat constructor.
  - unfold Result_ByteSizeLong, Result_SerializeWithCachedSizes,
      raw_unknown, kept_unknown.
    rewrite !ops_size_app.
    destruct (status m =? 0); cbn; lia.
  - apply (written_tag_is_one_byte Result_fields);
      [apply Result_writes_only|].
    repeat constructor.
Qed.

(** ** A user name that is not UTF-8 *)

(** A [Response] whose user name is not valid UTF-8 is still written by
    the serializer, which ignores the verdict of [VerifyUtf8String]; the
    parser refuses what was written. *)
Theorem Response_bad_username_is_written_not_read m :
  username m <> [] ->
  IsStructurallyValidUTF8 (username m) = false ->
  In (WriteStringMaybeAliased 2 (username m))
     (Response_SerializeWithCachedSizes m) /\
  forall rest m0,
    Response_MergePartialFromCodedStream
      (wire_of (Response_SerializeWithCachedSizes m) ++ rest) m0 = None.
Proof.
  intros Hne Hbad. destruct m as [t n k u].
  cbn [username] in *. destruct n as [|c n]; [congruence|].
  unfold Response_SerializeWithCachedSizes.
  cbn [session_type username key Response_unknown_fields].
  split.
  - apply in_or_app. right. cbn. auto.
  - intros rest m0. rewrite !wire_of_app, <- !app_assoc.
    destruct (Z.eqb_spec t 0) as [->|Hnz];
      cbn -[to_int32 to_uint64 Response_MergePartialFromCodedStream];
      cbn [Response_MergePartialFromCodedStream];
      cbn -[to_int32 to_uint64 Response_MergePartialFromCodedStream];
      rewrite Hbad; reflexivity.
Qed.

End Codec.

(** ** Samples *)

(** A validator for the samples: it accepts the strings of ASCII
    characters, which are valid UTF-8. *)
Definition ascii_only (s : list byte) : bool :=
  forallb (fun b => Z.of_N (Byte.to_N b) <? 128) s.





(** An input with the version twice and, between the two, field 1 under
    the wire type of a string: the parser keeps the second version and the
    odd field, and what it built is serialized faithfully. *)
Lemma accepted_input_is_reserialized_faithfully_witness :
  let input := [mkField 8 (Varint 1); mkField 10 (LengthDelimited [x01]);
                mkField 8 (Varint 2)] in
  let m := mkRequest 2 [] [mkField 10 (LengthDelimited [x01])] in
  Request_MergePartialFromCodedStream input Request_Clear = Some m /\
  Request_MergePartialFromCodedStream
    (wire_of (Request_SerializeWithCachedSizes true m)) Request_Clear = Some m.
Proof.
  cbv zeta. split; [reflexivity|].
  apply (proj1 (accepted_input_is_reserialized_faithfully
                  true ascii_only eq_refl eq_refl)
               [mkField 8 (Varint 1); mkField 10 (LengthDelimited [x01]);
                mkField 8 (Varint 2)]).
  - repeat constructor; cbn; lia.
  - reflexivity.
Defined.

(** A response whose user name is the single byte ff is written and not
    read. *)
Lemma Response_bad_username_is_written_not_read_witness :
  Response_MergePartialFromCodedStream ascii_only
    (wire_of (Response_SerializeWithCachedSizes true
                (mkResponse 1 [xff] [] []))) Response_Clear
  = None.
Proof.
  rewrite <- (app_nil_r (wire_of _)).
  apply (Response_bad_username_is_written_not_read true ascii_only
           (mkResponse 1 [xff] [] [])); [discriminate|reflexivity].
Defined.

End ProtoAuth.

(* ================================================================== *)
(** * net::User: the validators user_dialog.cc calls *)
(* ================================================================== *)

Module User.

(** [std::u16string]: the list of its code units. *)
Definition u16string := list Z.

(** A literal, unit by unit. *)
Definition u16 (s : string) : u16string :=
  map (fun a => Z.of_N (N_of_ascii a)) (list_ascii_of_string s).

Definition in_range (lo hi : string) (c : Z) : bool :=
  match u16 lo, u16 hi with
  | [l], [h] => (l <=? c) && (c <=? h)
  | _, _ => false
  end.

Definition is_upper (c : Z) : bool := in_range "A" "Z" c.
Definition is_lower (c : Z) : bool := in_range "a" "z" c.
Definition is_digit (c : Z) : bool := in_range "0" "9" c.

(** Modelled from the spec: the least length of a user name, 3 code points
    (net/user.h is not part of the sources). *)
Definition kMinUserNameLength : Z := 3.

(** Modelled from the spec: the greatest length of a user name, 64 code
    points (net/user.h is not part of the sources). *)
Definition kMaxUserNameLength : Z := 64.

(** Modelled from the spec: the greatest length of a password, 64 code
    points (net/user.h is not part of the sources; user_dialog.cc names the
    constant in its warning). *)
Definition kMaxPasswordLength : Z := 64.

(** Modelled from the spec: the least length of a safe password, 8 code
    points (net/user.h is not part of the sources; user_dialog.cc names the
    constant in its warning). *)
Definition kSafePasswordLength : Z := 8.

(** Modelled from the spec: the characters of a user name, [A-Za-z0-9_.-]
    (net/user.cc is not part of the sources). *)
Definition isValidUserNameChar (c : Z) : bool :=
  is_upper c || is_lower c || is_digit c ||
  existsb (Z.eqb c) (u16 "_.-").

(** Modelled from the spec: [net::User::isValidUserName], whose body
    (net/user.cc) is not part of the sources: 3 to 64 code points, each of
    [A-Za-z0-9_.-]. *)
Definition isValidUserName (username : u16string) : bool :=
  let length := Z.of_nat (List.length username) in
  (kMinUserNameLength <=? length) && (length <=? kMaxUserNameLength) &&
  forallb isValidUserNameChar username.

(** The two halves of a code point above the basic plane. *)
Definition is_high_surrogate (c : Z) : bool := (55296 <=? c) && (c <=? 56319).
Definition is_low_surrogate (c : Z) : bool := (56320 <=? c) && (c <=? 57343).

(** Modelled from the spec: the code points of a password, which the
    dialog hands over as a [std::u16string]: a high surrogate followed by a
    low one is one code point, any other code unit is one by itself. *)
Fixpoint code_points (s : u16string) : list Z :=
  match s with
  | [] => []
  | h :: rest =>
      match rest with
      | l :: rest' =>
          if is_high_surrogate h && is_low_surrogate l
          then (65536 + (h - 55296) * 1024 + (l - 56320)) :: code_points rest'
          else h :: code_points rest
      | [] => [h]
      end
  end.

(** The number of bytes of a code point, and of a string, in UTF-8. *)
Definition utf8_size (c : Z) : Z :=
  if c <? 128 then 1 else if c <? 2048 then 2 else if c <? 65536 then 3 else 4.

Definition utf8_bytes (s : u16string) : Z :=
  fold_right (fun c n => utf8_size c + n) 0 (code_points s).

(** Modelled from the spec: [net::User::isValidPassword], whose body
    (net/user.cc) is not part of the sources: non-empty, at most 64 code
    points. *)
Definition isValidPassword (password : u16string) : bool :=
  let length := Z.of_nat (List.length (code_points password)) in
  (0 <? length) && (length <=? kMaxPasswordLength).

Section Classification.

(** Modelled from the spec: which code points are lowercase letters,
    uppercase letters and digits.  The spec names the three classes and not
    the alphabets they range over, so they are parameters. *)
Variables lowercase uppercase digit : Z -> bool.

(** Modelled from the spec: [net::User::isSafePassword], whose body
    (net/user.cc) is not part of the sources: a valid password of at least 8
    code points with a lowercase letter, an uppercase letter and a digit. *)
Definition isSafePassword (password : u16string) : bool :=
  let length := Z.of_nat (List.length (code_points password)) in
  isValidPassword password &&
  (kSafePasswordLength <=? length) &&
  existsb lowercase (code_points password) &&
  existsb uppercase (code_points password) &&
  existsb digit (code_points password).

End Classification.

(** The character set of a user name, as a proposition on code points. *)
Definition name_char (c : Z) : Prop :=
  65 <= c <= 90 \/ 97 <= c <= 122 \/ 48 <= c <= 57 \/
  c = 95 \/ c = 46 \/ c = 45.

Lemma isValidUserNameChar_iff c : isValidUserNameChar c = true <-> name_char c.
Proof.
  unfold isValidUserNameChar, name_char, is_upper, is_lower, is_digit, in_range.
  cbn. rewrite !orb_true_iff, !andb_true_iff, !Z.leb_le, !Z.eqb_eq.
  intuition (try discriminate; lia).
Qed.

Lemma isValidUserName_iff username :
  isValidUserName username = true <->
  3 <= Z.of_nat (List.length username) <= 64 /\ Forall name_char username.
Proof.
  unfold isValidUserName, kMinUserNameLength, kMaxUserNameLength. cbv zeta.
  rewrite !andb_true_iff, !Z.leb_le, forallb_forall, Forall_forall.
  split.
  - intros [[H1 H2] H3]. split; [lia|].
    intros c Hc. apply isValidUserNameChar_iff. auto.
  - intros [H1 H3]. split; [lia|].
    intros c Hc. apply isValidUserNameChar_iff. auto.
Qed.

Lemma code_points_nil password : code_points password = [] <-> password = [].
Proof.
  split; [|intros ->; reflexivity].
  destruct password as [|h [|l rest]]; cbn; try discriminate; auto.
  destruct (_ && _); discriminate.
Qed.

(** A string without surrogates is the list of its code points. *)
Lemma code_points_basic password :
  Forall (fun c => is_high_surrogate c = false) password ->
  code_points password = password.
Proof.
  induction 1 as [|h rest Hh Hrest IH]; [reflexivity|].
  cbn [code_points]. destruct rest as [|l rest']; [reflexivity|].
  rewrite Hh. cbn [andb]. rewrite IH. reflexivity.
Qed.

Lemma code_points_ascii password :
  Forall (fun c => 0 <= c < 128) password ->
  code_points password = password.
Proof.
  intro H. apply code_points_basic.
  eapply Forall_impl; [|exact H]. cbn. intros c Hc.
  unfold is_high_surrogate. apply andb_false_iff. left. apply Z.leb_gt. lia.
Qed.

Lemma utf8_bytes_ascii password :
  Forall (fun c => 0 <= c < 128) password ->
  utf8_bytes password = Z.of_nat (List.length password).
Proof.
  intro H. unfold utf8_bytes. rewrite (code_points_ascii _ H).
  induction H as [|c rest Hc Hrest IH]; [reflexivity|].
  cbn [fold_right List.length]. rewrite IH. unfold utf8_size.
  destruct (Z.ltb_spec c 128); lia.
Qed.

Lemma isValidPassword_iff password :
  isValidPassword password = true <->
  password <> [] /\ Z.of_nat (List.length (code_points password)) <= 64.
Proof.
  unfold isValidPassword, kMaxPasswordLength. cbv zeta.
  rewrite andb_true_iff, Z.ltb_lt, Z.leb_le, <- code_points_nil.
  destruct (code_points password) as [|c p]; cbn [List.length]; split.
  - intros [H _]; lia.
  - intros [H _]; congruence.
  - intros [_ H]; split; [discriminate|lia].
  - intros [_ H]; split; lia.
Qed.

Lemma isSafePassword_iff lowercase uppercase digit password :
  isSafePassword lowercase uppercase digit password = true <->
  isValidPassword password = true /\
  8 <= Z.of_nat (List.length (code_points password)) /\
  (exists c, In c (code_points password) /\ lowercase c = true) /\
  (exists c, In c (code_points password) /\ uppercase c = true) /\
  (exists c, In c (code_points password) /\ digit c = true).
Proof.
  unfold isSafePassword, kSafePasswordLength. cbv zeta.
  rewrite !andb_true_iff, !existsb_exists, Z.leb_le. tauto.
Qed.

(** Two classifications that agree on the code points of a password judge
    it alike. *)
Lemma isSafePassword_ext lowercase uppercase digit lowercase' uppercase' digit'
    password :
  Forall (fun c => lowercase c = lowercase' c /\ uppercase c = uppercase' c /\
                   digit c = digit' c) (code_points password) ->
  isSafePassword lowercase uppercase digit password
  = isSafePassword lowercase' uppercase' digit' password.
Proof.
  intro H. unfold isSafePassword. cbv zeta.
  assert (He : forall (f g : Z -> bool) l,
             Forall (fun c => f c = g c) l -> existsb f l = existsb g l).
  { intros f g l Hfg.
    induction Hfg as [|c l Hc Hl IH]; [reflexivity|].
    cbn [existsb]. rewrite Hc, IH. reflexivity. }
  rewrite (He lowercase lowercase'), (He uppercase uppercase'),
    (He digit digit'); [reflexivity| | |];
    (eapply Forall_impl; [|exact H]); cbn; tauto.
Qed.

End User.

(* ================================================================== *)
(** * source/router/manager/user_dialog.cc *)
(* ================================================================== *)

Module UserDialog.

Import User.

(** [QString], as the [std::u16string] that [toStdU16String] yields. *)
Definition QString := u16string.

(** A byte as a code unit, enough for the ASCII names of the samples. *)
Definition Z_of_byte_sample (b : byte) : Z := Z.of_N (Byte.to_N b).

Definition QString_eqb (a b : QString) : bool :=
  if list_eq_dec Z.eq_dec a b then true else false.

(** The fields of [proto::User] the dialog reads. *)
Record proto_User : Type := mkUser {
  name : list byte;
  flags : Z;
  sessions : Z
}.

Inductive EchoMode : Type := Normal | Password.

(** A [QLineEdit]: what the dialog sets and reads. *)
Record QLineEdit : Type := mkLineEdit {
  text : QString;
  enabled : bool;
  echoMode : EchoMode;
  eventFilter_installed : bool
}.

(** A [QTreeWidgetItem] of [tree_sessions]. *)
Record QTreeWidgetItem : Type := mkItem {
  item_text : QString;
  item_data : Z;
  item_checked : bool
}.

Inductive Widget : Type := w_edit_username | w_edit_password | w_edit_password_retry.

(** The widgets of [Ui::UserDialog]. *)
Record Ui : Type := mkUi {
  checkbox_enable : bool;
  edit_username : QString;
  edit_password : QLineEdit;
  edit_password_retry : QLineEdit;
  tree_sessions : list QTreeWidgetItem;
  focus : option Widget
}.

Record Dialog : Type := mkDialog {
  user_ : proto_User;
  exist_names_ : list QString;
  account_changed_ : bool;
  ui : Ui
}.

(** [QDialogButtonBox::StandardButton] / [QMessageBox::StandardButton] *)
Inductive StandardButton : Type := Ok | Cancel | Yes | No.

Inductive Warning : Type :=
| InvalidUserName
| PasswordsDoNotMatch
| InvalidPassword
| UnsafePassword.

(** How a click ends: [accept()] or [reject()] followed by [close()], or a
    return with the dialog still open. *)
Inductive DialogCode : Type := Accepted | Rejected | StillOpen.

Record Click : Type := mkClick {
  shown : list Warning;
  code : DialogCode;
  after : Dialog
}.

Section Dialog.

(** [net::User::ENABLED] and the two [proto::RouterSession] values are
    declared outside the sources; so are the form ([setupUi]) and the
    conversion of a UTF-8 name to a [QString]. *)
Variable ENABLED : Z.
Variables ROUTER_SESSION_MANAGER ROUTER_SESSION_AUTHORIZED_PEER : Z.
Variable setupUi : Ui.
Variable fromStdString : list byte -> QString.

(** The default member initializer of [account_changed_] (user_dialog.h). *)
Variable account_changed_default : bool.

(** The validators of [net::User] the dialog calls. *)
Variables isValidUserName isValidPassword isSafePassword : u16string -> bool.

(** An integer used as a condition: [flags & bit] is true when not zero. *)
Definition has_flag (flags bit : Z) : bool := negb (Z.land flags bit =? 0).

Definition set_password_edits (f : QLineEdit -> QLineEdit) (u : Ui) : Ui :=
  mkUi (checkbox_enable u) (edit_username u)
       (f (edit_password u)) (f (edit_password_retry u))
       (tree_sessions u) (focus u).

Definition set_focus (w : Widget) (u : Ui) : Ui :=
  mkUi (checkbox_enable u) (edit_username u)
       (edit_password u) (edit_password_retry u)
       (tree_sessions u) (Some w).

(** [void UserDialog::setAccountChanged(bool changed)] *)
Definition setAccountChanged (changed : bool) (d : Dialog) : Dialog :=
  let u := set_password_edits
             (fun e => mkLineEdit (text e) changed (echoMode e)
                                  (eventFilter_installed e)) (ui d) in
  let u :=
    if changed
    then set_password_edits
           (fun e => mkLineEdit [] (enabled e) Password
                                (eventFilter_installed e)) u
    else set_password_edits
           (fun e => mkLineEdit (u16 "Double-click to change") (enabled e)
                                Normal true) u in
  mkDialog (user_ d) (exist_names_ d) changed u.

(** [QString UserDialog::sessionTypeToString(proto::RouterSession)] *)
Definition sessionTypeToString (session_type : Z) : QString :=
  if session_type =? ROUTER_SESSION_MANAGER then u16 "Manager"
  else if session_type =? ROUTER_SESSION_AUTHORIZED_PEER
       then u16 "Authorized Peer"
       else [].

(** The lambda [add_session] of the constructor. *)
Definition add_session (user : proto_User) (session_type : Z) (u : Ui) : Ui :=
  let checked :=
    if negb (match name user with [] => true | _ => false end)
    then has_flag (sessions user) session_type
    else if session_type =? ROUTER_SESSION_AUTHORIZED_PEER then true
         else false in
  mkUi (checkbox_enable u) (edit_username u)
       (edit_password u) (edit_password_retry u)
       (tree_sessions u ++
          [mkItem (sessionTypeToString session_type) session_type checked])
       (focus u).

(** The constructor [UserDialog::UserDialog(user, exist_names, parent)]. *)
Definition UserDialog (user : proto_User) (exist_names : list QString)
    : Dialog :=
  let d := mkDialog user exist_names account_changed_default setupUi in
  let d :=
    match name user with
    | _ :: _ =>
        let u := ui d in
        let u := mkUi (negb (has_flag (flags user) ENABLED))
                      (fromStdString (name user))
                      (edit_password u) (edit_password_retry u)
                      (tree_sessions u) (focus u) in
        setAccountChanged false
          (mkDialog (user_ d) (exist_names_ d) (account_changed_ d) u)
    | [] =>
        let u := ui d in
        mkDialog (user_ d) (exist_names_ d) (account_changed_ d)
          (mkUi true (edit_username u) (edit_password u)
                (edit_password_retry u) (tree_sessions u) (focus u))
    end in
  let u := add_session user ROUTER_SESSION_AUTHORIZED_PEER (ui d) in
  let u := add_session user ROUTER_SESSION_MANAGER u in
  mkDialog (user_ d) (exist_names_ d) (account_changed_ d) u.

Definition with_ui (d : Dialog) (u : Ui) : Dialog :=
  mkDialog (user_ d) (exist_names_ d) (account_changed_ d) u.

(** [void UserDialog::onButtonBoxClicked(button)].
    [standard_button] is the button clicked; [answer] is the button the user
    picks in the question about an unsafe password. *)
Definition onButtonBoxClicked (standard_button answer : StandardButton)
    (d : Dialog) : Click :=
  match standard_button with
  | Ok =>
      let name := edit_username (ui d) in
      if negb (isValidUserName name)
      then mkClick [InvalidUserName] StillOpen
                   (with_ui d (set_focus w_edit_username (ui d)))
      else if negb (QString_eqb (text (edit_password (ui d)))
                                (text (edit_password_retry (ui d))))
      then mkClick [PasswordsDoNotMatch] StillOpen
                   (with_ui d (set_focus w_edit_password (ui d)))
      else
        let pass := text (edit_password (ui d)) in
        if negb (isValidPassword pass)
        then mkClick [InvalidPassword] StillOpen
                     (with_ui d (set_focus w_edit_password (ui d)))
        else if negb (isSafePassword pass)
        then
          match answer with
          | Yes =>
              let u := set_password_edits
                         (fun e => mkLineEdit [] (enabled e) (echoMode e)
                                              (eventFilter_installed e))
                         (ui d) in
              mkClick [UnsafePassword] StillOpen
                      (with_ui d (set_focus w_edit_password u))
          | _ => mkClick [UnsafePassword] Accepted d
          end
        else mkClick [] Accepted d
  | _ => mkClick [] Rejected d
  end.

(** [QEvent::Type], as far as [eventFilter] looks at it. *)
Inductive QEventType : Type := MouseButtonDblClick | OtherEvent.

(** The text [setAccountChanged(false)] puts in the password edits. *)
Definition placeholder : QString := u16 "Double-click to change".

(** [bool UserDialog::eventFilter(QObject* object, QEvent* event)]: the
    dialog afterwards and the value returned. *)
Definition eventFilter (object : Widget) (event : QEventType) (d : Dialog)
    : Dialog * bool :=
  match event, object with
  | MouseButtonDblClick, w_edit_password =>
      let d := setAccountChanged true d in
      (with_ui d (set_focus w_edit_password (ui d)), false)
  | MouseButtonDblClick, w_edit_password_retry =>
      let d := setAccountChanged true d in
      (with_ui d (set_focus w_edit_password_retry (ui d)), false)
  | _, _ => (d, false)
  end.

(** ** The constructor *)

Lemma QString_eqb_eq a b : QString_eqb a b = true <-> a = b.
Proof.
  unfold QString_eqb. destruct (list_eq_dec Z.eq_dec a b); split;
    congruence.
Qed.

(** C10.  Opened for an existing user (non-empty name), the dialog checks
    the enable box exactly when the [ENABLED] bit is absent from the user's
    flags; opened for a new user (empty name), it checks the box and adds the
    [ROUTER_SESSION_AUTHORIZED_PEER] item checked. *)
Theorem UserDialog_initial_state :
  (forall user exist_names,
      name user <> [] ->
      let d := UserDialog user exist_names in
      checkbox_enable (ui d) = negb (has_flag (flags user) ENABLED) /\
      (checkbox_enable (ui d) = true <-> Z.land (flags user) ENABLED = 0)) /\
  (forall user exist_names,
      name user = [] ->
      let d := UserDialog user exist_names in
      checkbox_enable (ui d) = true /\
      tree_sessions (ui d) =
        tree_sessions setupUi ++
        [mkItem (sessionTypeToString ROUTER_SESSION_AUTHORIZED_PEER)
                ROUTER_SESSION_AUTHORIZED_PEER true;
         mkItem (sessionTypeToString ROUTER_SESSION_MANAGER)
                ROUTER_SESSION_MANAGER
                (ROUTER_SESSION_MANAGER =? ROUTER_SESSION_AUTHORIZED_PEER)]).
Proof.
  split; intros user exist_names Hname d; subst d; unfold UserDialog.
  - destruct (name user) as [|c n] eqn:E; [congruence|].
    cbn. split; [reflexivity|].
    unfold has_flag. rewrite negb_involutive. apply Z.eqb_eq.
  - rewrite Hname. cbn. unfold add_session. rewrite Hname. cbn.
    rewrite Z.eqb_refl, <- app_assoc. cbn.
    destruct (ROUTER_SESSION_MANAGER =? ROUTER_SESSION_AUTHORIZED_PEER);
      split; reflexivity.
Qed.

(** ** The OK button *)

Lemma onButtonBoxClicked_invalid_name answer d :
  isValidUserName (edit_username (ui d)) = false ->
  onButtonBoxClicked Ok answer d =
  mkClick [InvalidUserName] StillOpen
          (with_ui d (set_focus w_edit_username (ui d))).
Proof. intro H. unfold onButtonBoxClicked. rewrite H. reflexivity. Qed.

Lemma onButtonBoxClicked_accepted button answer d :
  code (onButtonBoxClicked button answer d) = Accepted ->
  button = Ok /\
  isValidUserName (edit_username (ui d)) = true /\
  text (edit_password (ui d)) = text (edit_password_retry (ui d)) /\
  isValidPassword (text (edit_password (ui d))) = true /\
  (isSafePassword (text (edit_password (ui d))) = true \/ answer <> Yes).
Proof.
  unfold onButtonBoxClicked.
  destruct button; cbn; try discriminate.
  destruct (isValidUserName _); cbn; [|discriminate].
  destruct (QString_eqb _ _) eqn:Heq; cbn; [|discriminate].
  apply QString_eqb_eq in Heq.
  destruct (isValidPassword _); cbn; [|discriminate].
  destruct (isSafePassword _); cbn.
  - intros _. repeat split; auto.
  - destruct answer; cbn; try discriminate; intros _;
      repeat split; auto; right; discriminate.
Qed.

Lemma onButtonBoxClicked_unsafe answer d :
  isValidUserName (edit_username (ui d)) = true ->
  text (edit_password (ui d)) = text (edit_password_retry (ui d)) ->
  isValidPassword (text (edit_password (ui d))) = true ->
  isSafePassword (text (edit_password (ui d))) = false ->
  onButtonBoxClicked Ok answer d =
  match answer with
  | Yes =>
      mkClick [UnsafePassword] StillOpen
        (with_ui d
           (set_focus w_edit_password
              (set_password_edits
                 (fun e => mkLineEdit [] (enabled e) (echoMode e)
                                      (eventFilter_installed e)) (ui d))))
  | _ => mkClick [UnsafePassword] Accepted d
  end.
Proof.
  intros Hn Heq Hv Hs. unfold onButtonBoxClicked.
  apply QString_eqb_eq in Heq. rewrite Hn, Heq, Hv, Hs. reflexivity.
Qed.

Lemma onButtonBoxClicked_accepts answer d :
  isValidUserName (edit_username (ui d)) = true ->
  text (edit_password (ui d)) = text (edit_password_retry (ui d)) ->
  isValidPassword (text (edit_password (ui d))) = true ->
  isSafePassword (text (edit_password (ui d))) = true \/ answer <> Yes ->
  code (onButtonBoxClicked Ok answer d) = Accepted.
Proof.
  intros Hn Heq Hv Hs. unfold onButtonBoxClicked.
  apply QString_eqb_eq in Heq. rewrite Hn, Heq, Hv. cbn.
  destruct (isSafePassword _); cbn; [reflexivity|].
  destruct Hs as [Hs|Hs]; [discriminate Hs|].
  destruct answer; try reflexivity. congruence.
Qed.

(** The name and password edits of the dialog of an existing user. *)
Lemma existing_user_edits user exist_names :
  name user <> [] ->
  edit_username (ui (UserDialog user exist_names))
  = fromStdString (name user) /\
  edit_password (ui (UserDialog user exist_names))
  = mkLineEdit placeholder false Normal true /\
  edit_password_retry (ui (UserDialog user exist_names))
  = mkLineEdit placeholder false Normal true.
Proof.
  intros Hname. unfold UserDialog, add_session.
  destruct (name user) as [|c n] eqn:E; [congruence|].
  cbn. repeat split.
Qed.

(** ** All outcomes of a click *)

(** A click ends in [accept()] exactly when OK was clicked, the name is
    valid, the two passwords are equal and valid, and the password is safe or
    the user did not ask to enter another one; it ends in [reject()] exactly
    when another button was clicked.  It shows at most one warning, and it
    never touches the user name, the enable box, the session items or the
    record; unless it stays open it changes nothing at all. *)
Theorem onButtonBoxClicked_outcomes button answer d :
  let c := onButtonBoxClicked button answer d in
  (code c = Accepted <->
   button = Ok /\
   isValidUserName (edit_username (ui d)) = true /\
   text (edit_password (ui d)) = text (edit_password_retry (ui d)) /\
   isValidPassword (text (edit_password (ui d))) = true /\
   (isSafePassword (text (edit_password (ui d))) = true \/ answer <> Yes)) /\
  (code c = Rejected <-> button <> Ok) /\
  (List.length (shown c) <= 1)%nat /\
  (edit_username (ui (after c)) = edit_username (ui d) /\
   checkbox_enable (ui (after c)) = checkbox_enable (ui d) /\
   tree_sessions (ui (after c)) = tree_sessions (ui d) /\
   user_ (after c) = user_ d /\
   account_changed_ (after c) = account_changed_ d) /\
  (code c <> StillOpen -> after c = d).
Proof.
  cbv zeta. split; [split; [apply onButtonBoxClicked_accepted|]|].
  - intros [-> [Hn [Heq [Hv Hs]]]].
    apply onButtonBoxClicked_accepts; assumption.
  - unfold onButtonBoxClicked.
    destruct button; cbn;
      try (repeat split; try (intros; discriminate); try lia; auto;
           intros; congruence).
    destruct (isValidUserName _); cbn;
      [|repeat split; try (intros; discriminate); try lia; auto;
        intros; congruence].
    destruct (QString_eqb _ _); cbn;
      [|repeat split; try (intros; discriminate); try lia; auto;
        intros; congruence].
    destruct (isValidPassword _); cbn;
      [|repeat split; try (intros; discriminate); try lia; auto;
        intros; congruence].
    destruct (isSafePassword _); cbn;
      [repeat split; try (intros; discriminate); try lia; auto;
       intros; congruence|].
    destruct answer; cbn;
      repeat split; try (intros; discriminate); try lia; auto;
      intros; congruence.
Qed.

(** ** An existing account *)

(** The dialog opened for an existing user shows the user's name, checks
    each session item exactly when its bit is in the user's sessions, and
    leaves the two password edits disabled, in clear, with the same
    placeholder text and the event filter installed. *)
Theorem UserDialog_existing_user_form user exist_names :
  name user <> [] ->
  let d := UserDialog user exist_names in
  edit_username (ui d) = fromStdString (name user) /\
  account_changed_ d = false /\
  tree_sessions (ui d) =
    tree_sessions setupUi ++
    [mkItem (sessionTypeToString ROUTER_SESSION_AUTHORIZED_PEER)
            ROUTER_SESSION_AUTHORIZED_PEER
            (has_flag (sessions user) ROUTER_SESSION_AUTHORIZED_PEER);
     mkItem (sessionTypeToString ROUTER_SESSION_MANAGER)
            ROUTER_SESSION_MANAGER
            (has_flag (sessions user) ROUTER_SESSION_MANAGER)] /\
  edit_password (ui d) = mkLineEdit placeholder false Normal true /\
  edit_password_retry (ui d) = mkLineEdit placeholder false Normal true.
Proof.
  intros Hname d. subst d. unfold UserDialog, add_session.
  destruct (name user) as [|c n] eqn:E; [congruence|].
  cbn. rewrite <- app_assoc. repeat split.
Qed.

(** Clicking OK on the dialog of an existing user without touching the
    passwords never reports a mismatch: the placeholder text is what is
    checked as the password, and the click is accepted exactly when the
    validators accept that text. *)
Theorem untouched_account_submits_placeholder user exist_names answer :
  name user <> [] ->
  isValidUserName (fromStdString (name user)) = true ->
  let c := onButtonBoxClicked Ok answer (UserDialog user exist_names) in
  shown c <> [PasswordsDoNotMatch] /\
  (code c = Accepted <->
   isValidPassword placeholder = true /\
   (isSafePassword placeholder = true \/ answer <> Yes)).
Proof.
  intros Hname Hvalid c.
  destruct (existing_user_edits user exist_names Hname) as [Hu [Hp Hr]].
  subst c. split.
  - unfold onButtonBoxClicked. rewrite Hu, Hvalid, Hp, Hr. cbn [text negb].
    assert (Heq : QString_eqb placeholder placeholder = true)
      by (apply QString_eqb_eq; reflexivity).
    rewrite Heq. cbn [negb].
    destruct (isValidPassword placeholder); cbn [negb shown];
      [|discriminate].
    destruct (isSafePassword placeholder); cbn [negb shown]; [discriminate|].
    destruct answer; discriminate.
  - split.
    + intro Hacc. apply onButtonBoxClicked_accepted in Hacc.
      rewrite Hp in Hacc. cbn [text] in Hacc.
      destruct Hacc as [_ [_ [_ H]]]. exact H.
    + intros [Hv Hs]. apply onButtonBoxClicked_accepts;
        rewrite ?Hu, ?Hp, ?Hr; cbn [text]; auto.
Qed.

(** ** The event filter *)

(** [eventFilter] never consumes an event.  A double click on one of the
    two password edits marks the account as changed, empties and enables both
    edits, hides what is typed and gives the focus to the edit clicked; any
    other event leaves the dialog as it is. *)
Theorem eventFilter_unlocks_passwords object event d :
  snd (eventFilter object event d) = false /\
  (event = MouseButtonDblClick -> object <> w_edit_username ->
   let d' := fst (eventFilter object event d) in
   account_changed_ d' = true /\
   focus (ui d') = Some object /\
   text (edit_password (ui d')) = [] /\
   text (edit_password_retry (ui d')) = [] /\
   enabled (edit_password (ui d')) = true /\
   enabled (edit_password_retry (ui d')) = true /\
   echoMode (edit_password (ui d')) = Password /\
   echoMode (edit_password_retry (ui d')) = Password /\
   edit_username (ui d') = edit_username (ui d) /\
   checkbox_enable (ui d') = checkbox_enable (ui d) /\
   tree_sessions (ui d') = tree_sessions (ui d)) /\
  (event <> MouseButtonDblClick \/ object = w_edit_username ->
   fst (eventFilter object event d) = d).
Proof.
  split; [destruct event, object; reflexivity|]. split.
  - intros -> Hobj. destruct object; [congruence| |]; cbn; repeat split.
  - intros [H|H]; destruct event, object; try reflexivity; congruence.
Qed.

End Dialog.

(** ** Samples of the dialog of an existing user *)

(** An empty form, and the user [bob] with the [ENABLED] flag and the
    session bits 1 and 2 ([ENABLED = 1], the router session types 1 and 2). *)
Definition sample_form : Ui :=
  mkUi false [] (mkLineEdit [] true Normal false)
       (mkLineEdit [] true Normal false) [] None.

Definition bob : proto_User := mkUser [x62; x6f; x62] 1 3.

(** The dialog opened for [bob] shows his name, both session items checked
    and the placeholder in the disabled password edits. *)
Lemma UserDialog_existing_user_form_witness :
  let d := UserDialog 1 1 2 sample_form (map Z_of_byte_sample) true bob [] in
  edit_username (ui d) = u16 "bob" /\
  map item_checked (tree_sessions (ui d)) = [true; true] /\
  text (edit_password (ui d)) = placeholder /\
  enabled (edit_password (ui d)) = false.
Proof.
  cbv zeta.
  destruct (UserDialog_existing_user_form 1 1 2 sample_form
              (map Z_of_byte_sample) true bob [] ltac:(discriminate))
    as [Hu [_ [Ht [Hp _]]]].
  rewrite Hu, Ht, Hp. repeat split.
Defined.

(** With validators that accept any non-empty name and password and call
    no password safe, OK on [bob]'s untouched dialog warns about an unsafe
    password and is accepted when the user keeps it. *)
Lemma untouched_account_submits_placeholder_witness :
  let nonempty := fun s : u16string =>
                    match s with [] => false | _ => true end in
  let c := onButtonBoxClicked nonempty nonempty (fun _ => false) Ok No
             (UserDialog 1 1 2 sample_form (map Z_of_byte_sample) true bob [])
  in
  shown c = [UnsafePassword] /\ code c = Accepted.
Proof.
  cbv zeta. split; [reflexivity|].
  apply (untouched_account_submits_placeholder 1 1 2 sample_form
           (map Z_of_byte_sample) true
           (fun s => match s with [] => false | _ => true end)
           (fun s => match s with [] => false | _ => true end)
           (fun _ => false) bob [] No);
    [discriminate|reflexivity|].
  split; [reflexivity|right; discriminate].
Defined.

(** The dialog on sample data: [ENABLED = 1], the router session types 1
    and 2, an empty form.  A user with the [ENABLED] bit gets the box
    unchecked, one without it gets it checked, and a new user gets the box
    and the authorized-peer item checked. *)
Example UserDialog_initial_state_samples :
  let form := mkUi false [] (mkLineEdit [] true Normal false)
                   (mkLineEdit [] true Normal false) [] None in
  let open user := UserDialog 1 1 2 form (map Z_of_byte_sample) true user [] in
  checkbox_enable (ui (open (mkUser [x62; x6f; x62] 1 3))) = false /\
  checkbox_enable (ui (open (mkUser [x62; x6f; x62] 0 3))) = true /\
  checkbox_enable (ui (open (mkUser [] 0 0))) = true /\
  map item_checked (tree_sessions (ui (open (mkUser [] 0 0)))) = [true; false] /\
  map item_data (tree_sessions (ui (open (mkUser [] 0 0)))) = [2; 1].
Proof. repeat split. Qed.

(** ** The validators, and what the dialog does with them *)

(** The dialog with the validators of [net::User], for a classification
    of the code points of a password. *)
Definition click_with (lowercase uppercase digit : Z -> bool)
    : StandardButton -> StandardButton -> Dialog -> Click :=
  onButtonBoxClicked User.isValidUserName User.isValidPassword
                     (User.isSafePassword lowercase uppercase digit).

(** The same with the ASCII letters and digits; what it does with a user
    name does not depend on the classification. *)
Definition click : StandardButton -> StandardButton -> Dialog -> Click :=
  click_with User.is_lower User.is_upper User.is_digit.

(** A dialog whose form holds the given name and, twice, the given
    password. *)
Definition filled (username password : QString) : Dialog :=
  mkDialog (mkUser [] 0 0) [] true
    (mkUi true username
          (mkLineEdit password true Password false)
          (mkLineEdit password true Password false) [] None).

(** The name of scenario 6: [alice], a NUL, [drop]. *)
Definition alice_nul_drop : u16string := u16 "alice" ++ 0 :: u16 "drop".

(** C8.  A user name is valid exactly when it has 3 to 64 code points, all
    of them among [A-Z], [a-z], [0-9], underscore, dot and hyphen; a name
    with a NUL in it, such as [alice], NUL, [drop], is invalid; and the dialog
    does not accept a name that is not valid: it warns and stays open. *)
Theorem user_name_validation :
  (forall username,
      User.isValidUserName username = true <->
      3 <= Z.of_nat (List.length username) <= 64 /\
      Forall User.name_char username) /\
  (forall username, In 0 username -> User.isValidUserName username = false) /\
  User.isValidUserName alice_nul_drop = false /\
  (forall answer d,
      User.isValidUserName (edit_username (ui d)) = false ->
      shown (click Ok answer d) = [InvalidUserName] /\
      code (click Ok answer d) = StillOpen) /\
  (forall button answer d,
      code (click button answer d) = Accepted ->
      User.isValidUserName (edit_username (ui d)) = true) /\
  code (click Ok No (filled alice_nul_drop (u16 "Str0ng_pass!"))) = StillOpen /\
  code (click Ok No (filled (u16 "alice") (u16 "Str0ng_pass!"))) = Accepted.
Proof.
  split; [exact User.isValidUserName_iff|].
  split.
  { intros username H0.
    destruct (User.isValidUserName username) eqn:Hv; [|reflexivity].
    apply User.isValidUserName_iff in Hv. destruct Hv as [_ Hall].
    rewrite Forall_forall in Hall. specialize (Hall 0 H0).
    unfold User.name_char in Hall. lia. }
  split; [reflexivity|].
  split.
  { intros answer d H. unfold click, click_with.
    rewrite (onButtonBoxClicked_invalid_name _ _ _ answer d H).
    split; reflexivity. }
  split.
  { intros button answer d H.
    apply onButtonBoxClicked_accepted in H. tauto. }
  split; reflexivity.
Qed.

(** A password of 65 bytes in UTF-8 and 33 code points: 32 times e with an
    acute accent, and one [a]. *)
Definition accents_65_bytes : u16string := repeat 233 32 ++ u16 "a".

(** A password of 33 code points above the basic plane, 66 code units. *)
Definition faces_33 : u16string :=
  List.concat (repeat [55357; 56832] 33).

(** C7, as the specification states it, fails: [pw] is not empty and has no
    more than 64 code points, so a validity that holds exactly for such
    passwords holds for it; and it holds for some strings of 65 bytes, which
    have fewer code points than bytes. *)
Lemma pw_is_valid :
  User.isValidPassword (u16 "pw") = true /\
  (~ exists valid : u16string -> bool,
       (forall p, valid p = true <->
                  p <> [] /\
                  Z.of_nat (List.length (User.code_points p)) <= 64) /\
       valid (u16 "pw") = false) /\
  (~ exists valid : u16string -> bool,
       (forall p, valid p = true <->
                  p <> [] /\
                  Z.of_nat (List.length (User.code_points p)) <= 64) /\
       (forall p, User.utf8_bytes p = 65 -> valid p = false)).
Proof.
  split; [reflexivity|]. split.
  - intros [valid [Hiff Hpw]].
    assert (H : valid (u16 "pw") = true)
      by (apply Hiff; cbn; split; [discriminate|lia]).
    congruence.
  - intros [valid [Hiff H65]].
    assert (H : valid accents_65_bytes = true).
    { apply Hiff. split; [discriminate|]. vm_compute. discriminate. }
    rewrite (H65 accents_65_bytes) in H by reflexivity. discriminate H.
Qed.

Section PasswordPolicy.

(** The classification of code points, of which only the ASCII part is
    fixed: there the lowercase letters are [a-z], the uppercase letters
    [A-Z] and the digits [0-9]. *)
Variables lowercase uppercase digit : Z -> bool.

Hypothesis lowercase_ascii :
  forall c, 0 <= c < 128 -> lowercase c = User.is_lower c.
Hypothesis uppercase_ascii :
  forall c, 0 <= c < 128 -> uppercase c = User.is_upper c.
Hypothesis digit_ascii :
  forall c, 0 <= c < 128 -> digit c = User.is_digit c.

(** On a password of ASCII characters the classification is the ASCII
    one. *)
Lemma isSafePassword_ascii password :
  Forall (fun c => 0 <= c < 128) password ->
  User.isSafePassword lowercase uppercase digit password
  = User.isSafePassword User.is_lower User.is_upper User.is_digit password.
Proof.
  intro H. apply User.isSafePassword_ext.
  rewrite (User.code_points_ascii _ H).
  eapply Forall_impl; [|exact H]. cbn. intros c Hc. auto.
Qed.

Lemma u16_ascii_sample (s : string) :
  forallb (fun c => (0 <=? c) && (c <? 128)) (u16 s) = true ->
  Forall (fun c => 0 <= c < 128) (u16 s).
Proof.
  intro H. rewrite forallb_forall in H. apply Forall_forall.
  intros c Hc. specialize (H c Hc).
  apply andb_true_iff in H. rewrite Z.leb_le, Z.ltb_lt in H. exact H.
Qed.

(** C7, as amended.  A password is valid exactly when it is not empty and
    has at most 64 code points, and safe when, besides, it has at least 8 code
    points with a lowercase letter, an uppercase letter and a digit among
    them.  [pw] is valid and not safe; a password of 65 code points is
    invalid, such as one of 65 bytes that are 65 ASCII characters, while one
    of 65 bytes and 33 code points, or of 33 code points on 66 code units, is
    valid; [Str0ng_pass!] is valid and safe;
    [password] is valid and not safe.  Safety is advisory: the dialog asks
    about an unsafe but valid password and accepts it unless the user chooses
    to enter another one. *)
Theorem password_validation :
  (forall p, User.isValidPassword p = true <->
             p <> [] /\ Z.of_nat (List.length (User.code_points p)) <= 64) /\
  (forall p, User.isSafePassword lowercase uppercase digit p = true <->
             User.isValidPassword p = true /\
             8 <= Z.of_nat (List.length (User.code_points p)) /\
             (exists c, In c (User.code_points p) /\ lowercase c = true) /\
             (exists c, In c (User.code_points p) /\ uppercase c = true) /\
             (exists c, In c (User.code_points p) /\ digit c = true)) /\
  (User.isValidPassword (u16 "pw") = true /\
   User.isSafePassword lowercase uppercase digit (u16 "pw") = false) /\
  (forall p, List.length (User.code_points p) = 65%nat ->
             User.isValidPassword p = false) /\
  (forall p, Forall (fun c => 0 <= c < 128) p -> User.utf8_bytes p = 65 ->
             User.isValidPassword p = false) /\
  (User.utf8_bytes accents_65_bytes = 65 /\
   User.isValidPassword accents_65_bytes = true) /\
  (List.length faces_33 = 66%nat /\
   List.length (User.code_points faces_33) = 33%nat /\
   User.isValidPassword faces_33 = true) /\
  (User.isValidPassword (u16 "Str0ng_pass!") = true /\
   User.isSafePassword lowercase uppercase digit (u16 "Str0ng_pass!") = true) /\
  (User.isValidPassword (u16 "password") = true /\
   User.isSafePassword lowercase uppercase digit (u16 "password") = false) /\
  (forall answer d,
      User.isValidUserName (edit_username (ui d)) = true ->
      text (edit_password (ui d)) = text (edit_password_retry (ui d)) ->
      User.isValidPassword (text (edit_password (ui d))) = true ->
      User.isSafePassword lowercase uppercase digit
                          (text (edit_password (ui d))) = false ->
      let c := click_with lowercase uppercase digit Ok answer d in
      shown c = [UnsafePassword] /\
      (answer <> Yes -> code c = Accepted) /\
      (answer = Yes -> code c = StillOpen)) /\
  code (click_with lowercase uppercase digit Ok No
                   (filled (u16 "alice") (u16 "password"))) = Accepted.
Proof.
  assert (Hpw : User.isSafePassword lowercase uppercase digit (u16 "pw")
                = false)
    by (rewrite isSafePassword_ascii
          by (apply u16_ascii_sample; reflexivity); reflexivity).
  assert (Hstrong : User.isSafePassword lowercase uppercase digit
                                        (u16 "Str0ng_pass!") = true)
    by (rewrite isSafePassword_ascii
          by (apply u16_ascii_sample; reflexivity); reflexivity).
  assert (Hweak : User.isSafePassword lowercase uppercase digit
                                      (u16 "password") = false)
    by (rewrite isSafePassword_ascii
          by (apply u16_ascii_sample; reflexivity); reflexivity).
  assert (Hadvisory : forall answer d,
      User.isValidUserName (edit_username (ui d)) = true ->
      text (edit_password (ui d)) = text (edit_password_retry (ui d)) ->
      User.isValidPassword (text (edit_password (ui d))) = true ->
      User.isSafePassword lowercase uppercase digit
                          (text (edit_password (ui d))) = false ->
      let c := click_with lowercase uppercase digit Ok answer d in
      shown c = [UnsafePassword] /\
      (answer <> Yes -> code c = Accepted) /\
      (answer = Yes -> code c = StillOpen)).
  { intros answer d Hn Heq Hv Hs c. subst c. unfold click_with.
    rewrite (onButtonBoxClicked_unsafe _ _ _ answer d Hn Heq Hv Hs).
    destruct answer; cbn; repeat split; congruence. }
  split; [exact User.isValidPassword_iff|].
  split; [apply User.isSafePassword_iff|].
  split; [split; [reflexivity|exact Hpw]|].
  split.
  { intros p Hp. unfold User.isValidPassword. rewrite Hp. reflexivity. }
  split.
  { intros p Hascii Hbytes. rewrite (User.utf8_bytes_ascii _ Hascii) in Hbytes.
    unfold User.isValidPassword. rewrite (User.code_points_ascii _ Hascii).
    rewrite Hbytes. reflexivity. }
  split; [split; reflexivity|].
  split; [repeat split|].
  split; [split; [reflexivity|exact Hstrong]|].
  split; [split; [reflexivity|exact Hweak]|].
  split; [exact Hadvisory|].
  apply (Hadvisory No (filled (u16 "alice") (u16 "password")));
    [reflexivity|reflexivity|reflexivity|exact Hweak|discriminate].
Qed.

End PasswordPolicy.

(** With the ASCII letters and digits as the whole classification:
    [Str0ng_pass!] is safe, and the dialog accepts [password] when the user
    keeps it. *)
Lemma password_validation_witness :
  User.isSafePassword User.is_lower User.is_upper User.is_digit
                      (u16 "Str0ng_pass!") = true /\
  code (click Ok No (filled (u16 "alice") (u16 "password"))) = Accepted.
Proof.
  pose proof (password_validation User.is_lower User.is_upper User.is_digit
                (fun c _ => eq_refl) (fun c _ => eq_refl) (fun c _ => eq_refl))
    as [_ [_ [_ [_ [_ [_ [_ [[_ Hstrong] [_ [_ Haccepted]]]]]]]]]].
  split; [exact Hstrong|exact Haccepted].
Defined.

End UserDialog.

(* ================================================================== *)
(** * source/peer/server_authenticator.h *)
(* ================================================================== *)

Module ServerAuthenticator.

(** ** What the header declares *)

(** [enum class AnonymousAccess] *)
Inductive AnonymousAccess : Type :=
| ENABLE     (* Anonymous access is enabled. *)
| DISABLE.   (* Anonymous access is disabled. *)

(** [enum class InternalState] *)
Inductive InternalState : Type :=
| READ_CLIENT_HELLO
| SEND_SERVER_HELLO
| READ_IDENTIFY
| SEND_SERVER_KEY_EXCHANGE
| READ_CLIENT_KEY_EXCHANGE
| SEND_SESSION_CHALLENGE
| READ_SESSION_RESPONSE.

Definition ByteArray := list byte.
Definition BigNum := Z.

(** ** Numbers and bytes *)

Definition byte_of_Z (z : Z) : byte :=
  match Byte.of_N (Z.to_N (z mod 256)) with
  | Some b => b
  | None => x00
  end.

Definition Z_of_byte (b : byte) : Z := Z.of_N (Byte.to_N b).

(** Big-endian bytes of a number, on [width] bytes. *)
Fixpoint to_be (width : nat) (x : Z) : ByteArray :=
  match width with
  | O => []
  | S w => to_be w (x / 256) ++ [byte_of_Z x]
  end.

(** The number a big-endian byte string stands for. *)
Definition of_be (b : ByteArray) : BigNum :=
  fold_left (fun acc c => acc * 256 + Z_of_byte c) b 0.

(** The number of bytes of a positive number; 0 for 0. *)
Definition byte_width (x : BigNum) : nat :=
  if x <=? 0 then O else Z.to_nat (Z.log2 x / 8 + 1).

(** A number as bytes with no leading zero. *)
Definition BigNum_toBytes (x : BigNum) : ByteArray := to_be (byte_width x) x.

(** [PAD]: a number on as many bytes as [N] takes. *)
Definition PAD (N x : BigNum) : ByteArray := to_be (byte_width N) x.

(** A 32-bit integer from 4 little-endian bytes. *)
Definition of_le32 (b : ByteArray) : option Z :=
  match b with
  | [b0; b1; b2; b3] => Some (of_be [b3; b2; b1; b0])
  | _ => None
  end.

(** A mask with exactly one bit. *)
Definition is_single_bit (x : Z) : bool :=
  (0 <? x) && (Z.land x (x - 1) =? 0).

(** ASCII lower case of a byte, for the comparison of names. *)
Definition to_lower (b : byte) : byte :=
  let c := Z_of_byte b in
  if (65 <=? c) && (c <=? 90) then byte_of_Z (c + 32) else b.

Definition ByteArray_eqb (a b : ByteArray) : bool :=
  if list_eq_dec Byte.byte_eq_dec a b then true else false.

(** ** Users *)

(** Modelled from the spec: the identifiers of the SRP groups (section 3;
    base/crypto is not part of the sources). *)
Inductive GroupId : Type := G1024 | G2048 | G3072 | G4096.

(** Modelled from the spec: the user record of section 3 (peer/user.h is not
    part of the sources). *)
Record UserRecord : Type := mkUserRecord {
  name : ByteArray;
  salt : ByteArray;
  verifier : BigNum;
  group : GroupId;
  sessions : Z;
  flags : Z
}.

Definition UserList := list UserRecord.

Definition lower (n : ByteArray) : ByteArray := map to_lower n.

(** Modelled from the spec: [UserList::find], case-insensitive over the
    ASCII range (peer/user_list.cc is not part of the sources). *)
Definition find (users : UserList) (username : ByteArray) : option UserRecord :=
  List.find (fun u => ByteArray_eqb (lower (name u)) (lower username)) users.

(** ** Messages *)

(** Modelled from the spec: the authentication methods of [ClientHello] and
    [ServerHello]. *)
Inductive Method : Type := SRP | ANONYMOUS.

(** Modelled from the spec: the messages a client sends (section 4.5). *)
Inductive ClientMessage : Type :=
| ClientHello (version methods : Z)
| Identify (username : ByteArray)
| ClientKeyExchange (A iv encrypted_session_types : ByteArray)
| SessionResponse (session_type cpu_features : Z).

(** Modelled from the spec: the messages the server sends (section 4.5). *)
Inductive ServerMessage : Type :=
| ServerHello (version : Z) (method : Method) (ecdh_public : ByteArray)
| ServerKeyExchange (n_group : GroupId) (salt B iv : ByteArray)
| SessionChallenge (session_types cpu_features version : Z).

(** Modelled from the spec: the state in which the server reads each
    message. *)
Definition expected_in (m : ClientMessage) : InternalState :=
  match m with
  | ClientHello _ _ => READ_CLIENT_HELLO
  | Identify _ => READ_IDENTIFY
  | ClientKeyExchange _ _ _ => READ_CLIENT_KEY_EXCHANGE
  | SessionResponse _ _ => READ_SESSION_RESPONSE
  end.

(** ** The authenticator *)

(** Modelled from the spec: the error taxonomy of section 7. *)
Inductive ErrorKind : Type :=
| PROTOCOL_ERROR
| ACCESS_DENIED
| SESSION_DENIED
| TIMEOUT
| TRANSPORT_ERROR
| INTERNAL_ERROR.

(** Modelled from the spec: how a handshake stands: running, done, or
    failed for one classified reason (the base class peer::Authenticator is
    not part of the sources). *)
Inductive Outcome : Type :=
| PENDING
| SUCCESS
| FAILURE (kind : ErrorKind).

(** The seven [BigNum] members of the class. *)
Record SrpNumbers : Type := mkSrp {
  N_ : BigNum;
  g_ : BigNum;
  v_ : BigNum;
  s_ : BigNum;
  b_ : BigNum;
  B_ : BigNum;
  A_ : BigNum
}.

(** Modelled from the spec: the rest of the handshake context of section 3
    and the channel as the authenticator sees it (peer/authenticator.h and
    base/net/network_channel.h are not part of the sources): the outcome, the
    chosen method, the will-fail mark, the reported user name, the negotiated
    session type, the installed keys, the frames handed to the channel in
    order, and whether the channel was closed. *)
Record Connection : Type := mkConnection {
  outcome : Outcome;
  method_ : Method;
  will_fail : bool;
  user_name : ByteArray;
  session_type_ : Z;
  encryption : option (ByteArray * ByteArray);
  sent : list ServerMessage;
  closed : bool
}.

(** [class ServerAuthenticator]: the members the header declares, with the
    initial values it gives them, and the connection. *)
Record Authenticator : Type := mkAuthenticator {
  user_list_ : option UserList;
  anonymous_access_ : AnonymousAccess;
  internal_state_ : InternalState;
  session_types_ : Z;
  key_pair_ : option ByteArray;
  srp : SrpNumbers;
  connection : Connection
}.

(** A freshly constructed authenticator: [anonymous_access_ = DISABLE],
    [internal_state_ = READ_CLIENT_HELLO], [session_types_ = 0] are the
    default member initializers of the header. *)
Definition new_authenticator : Authenticator :=
  {| user_list_ := None;
     anonymous_access_ := DISABLE;
     internal_state_ := READ_CLIENT_HELLO;
     session_types_ := 0;
     key_pair_ := None;
     srp := mkSrp 0 0 0 0 0 0 0;
     connection := mkConnection PENDING SRP false [] 0 None [] false |}.

(** Modelled from the spec: the state of the handshake as section 3 names
    it. *)
Inductive HandshakeState : Type :=
| Active (s : InternalState)
| DONE
| FAILED (kind : ErrorKind).

Definition handshake_state (a : Authenticator) : HandshakeState :=
  match outcome (connection a) with
  | PENDING => Active (internal_state_ a)
  | SUCCESS => DONE
  | FAILURE kind => FAILED kind
  end.

(** ** Configuration *)

(** Modelled from the spec: [setUserList], whose body
    (peer/server_authenticator.cc) is not part of the sources: it records the
    list. *)
Definition setUserList (user_list : UserList) (a : Authenticator)
    : Authenticator :=
  mkAuthenticator (Some user_list) (anonymous_access_ a) (internal_state_ a)
                  (session_types_ a) (key_pair_ a) (srp a) (connection a).

(** Modelled from the spec: [setPrivateKey], whose body
    (peer/server_authenticator.cc) is not part of the sources: the key is a
    32-byte seed; anything else is refused and changes nothing. *)
Definition setPrivateKey (private_key : ByteArray) (a : Authenticator)
    : Authenticator * bool :=
  if Nat.eqb (List.length private_key) 32
  then (mkAuthenticator (user_list_ a) (anonymous_access_ a)
                        (internal_state_ a) (session_types_ a)
                        (Some private_key) (srp a) (connection a), true)
  else (a, false).

(** Modelled from the spec: [setAnonymousAccess], whose body
    (peer/server_authenticator.cc) is not part of the sources.  The header
    says: the private key must be set up for anonymous access. *)
Definition setAnonymousAccess (anonymous_access : AnonymousAccess)
    (session_types : Z) (a : Authenticator) : Authenticator * bool :=
  match anonymous_access, key_pair_ a with
  | ENABLE, None => (a, false)
  | _, _ =>
      (mkAuthenticator (user_list_ a) anonymous_access (internal_state_ a)
                       session_types (key_pair_ a) (srp a) (connection a),
       true)
  end.

(** A call of the configuration interface. *)
Inductive ConfigCall : Type :=
| SetUserList (user_list : UserList)
| SetPrivateKey (private_key : ByteArray)
| SetAnonymousAccess (anonymous_access : AnonymousAccess) (session_types : Z).

Definition configure (a : Authenticator) (c : ConfigCall)
    : Authenticator * bool :=
  match c with
  | SetUserList l => (setUserList l a, true)
  | SetPrivateKey k => setPrivateKey k a
  | SetAnonymousAccess m t => setAnonymousAccess m t a
  end.

(** The authenticator after a sequence of configuration calls. *)
Definition configured (calls : list ConfigCall) : Authenticator :=
  fold_left (fun a c => fst (configure a c)) calls new_authenticator.

(** ** The handshake *)

(** Modelled from the spec: what the handshake takes from its collaborators
    and from the connection (base/crypto, the channel and the random source
    are not part of the sources): the hash [H], the key derivation of section
    4.2, authenticated decryption, the SRP groups and the default one, the
    record synthesized for a user that cannot log in, the server secret, the
    protocol constants, and for this connection the ECDH public key and shared
    secret and the random [b] and [iv]. *)
Record Primitives : Type := mkPrimitives {
  hash : ByteArray -> ByteArray;
  derive_keys : ByteArray -> ByteArray -> ByteArray -> ByteArray * ByteArray;
  decrypt : ByteArray -> ByteArray -> ByteArray -> option ByteArray;
  srp_group : GroupId -> BigNum * BigNum;
  default_group : GroupId;
  synthesize : ByteArray -> UserRecord;
  server_secret : ByteArray;
  anonymous_salt : ByteArray;
  MIN_VERSION : Z;
  SERVER_VERSION : Z;
  METHOD_SRP : Z;
  METHOD_ANONYMOUS : Z;
  ENABLED : Z;
  cpu_features : Z;
  ecdh_public : ByteArray;
  ecdh_shared : ByteArray;
  random_b : BigNum;
  random_iv : ByteArray
}.

Definition has_bit (mask bit : Z) : bool := negb (Z.land mask bit =? 0).

Definition InternalState_eqb (s t : InternalState) : bool :=
  match s, t with
  | READ_CLIENT_HELLO, READ_CLIENT_HELLO
  | SEND_SERVER_HELLO, SEND_SERVER_HELLO
  | READ_IDENTIFY, READ_IDENTIFY
  | SEND_SERVER_KEY_EXCHANGE, SEND_SERVER_KEY_EXCHANGE
  | READ_CLIENT_KEY_EXCHANGE, READ_CLIENT_KEY_EXCHANGE
  | SEND_SESSION_CHALLENGE, SEND_SESSION_CHALLENGE
  | READ_SESSION_RESPONSE, READ_SESSION_RESPONSE => true
  | _, _ => false
  end.

(** *** Updates of the members *)

Definition with_connection (a : Authenticator) (c : Connection)
    : Authenticator :=
  mkAuthenticator (user_list_ a) (anonymous_access_ a) (internal_state_ a)
                  (session_types_ a) (key_pair_ a) (srp a) c.

Definition set_state (s : InternalState) (a : Authenticator) : Authenticator :=
  mkAuthenticator (user_list_ a) (anonymous_access_ a) s
                  (session_types_ a) (key_pair_ a) (srp a) (connection a).

Definition set_session_types (t : Z) (a : Authenticator) : Authenticator :=
  mkAuthenticator (user_list_ a) (anonymous_access_ a) (internal_state_ a)
                  t (key_pair_ a) (srp a) (connection a).

Definition set_srp (n : SrpNumbers) (a : Authenticator) : Authenticator :=
  mkAuthenticator (user_list_ a) (anonymous_access_ a) (internal_state_ a)
                  (session_types_ a) (key_pair_ a) n (connection a).

Definition set_A (A : BigNum) (a : Authenticator) : Authenticator :=
  let n := srp a in
  set_srp (mkSrp (N_ n) (g_ n) (v_ n) (s_ n) (b_ n) (B_ n) A) a.

(** Modelled from the spec: hand a frame to the channel. *)
Definition send (m : ServerMessage) (a : Authenticator) : Authenticator :=
  let c := connection a in
  with_connection a
    (mkConnection (outcome c) (method_ c) (will_fail c) (user_name c)
                  (session_type_ c) (encryption c) (sent c ++ [m]) (closed c)).

(** Modelled from the spec (failure semantics): the handshake fails for one
    reason and the channel is closed; nothing is written. *)
Definition fail (kind : ErrorKind) (a : Authenticator) : Authenticator :=
  let c := connection a in
  with_connection a
    (mkConnection (FAILURE kind) (method_ c) (will_fail c) (user_name c)
                  (session_type_ c) (encryption c) (sent c) true).

Definition set_method (m : Method) (a : Authenticator) : Authenticator :=
  let c := connection a in
  with_connection a
    (mkConnection (outcome c) m (will_fail c) (user_name c)
                  (session_type_ c) (encryption c) (sent c) (closed c)).

Definition set_identity (username : ByteArray) (bogus : bool)
    (a : Authenticator) : Authenticator :=
  let c := connection a in
  with_connection a
    (mkConnection (outcome c) (method_ c) bogus username
                  (session_type_ c) (encryption c) (sent c) (closed c)).

(** Modelled from the spec: [setEncryption(c2s_key, s2c_key)] on the
    channel. *)
Definition setEncryption (keys : ByteArray * ByteArray) (a : Authenticator)
    : Authenticator :=
  let c := connection a in
  with_connection a
    (mkConnection (outcome c) (method_ c) (will_fail c) (user_name c)
                  (session_type_ c) (Some keys) (sent c) (closed c)).

(** Modelled from the spec: the handshake is done with the negotiated
    session type. *)
Definition finish (session_type : Z) (a : Authenticator) : Authenticator :=
  let c := connection a in
  with_connection a
    (mkConnection SUCCESS (method_ c) (will_fail c) (user_name c)
                  session_type (encryption c) (sent c) (closed c)).

Section Handshake.

Variable P : Primitives.

(** Modelled from the spec: [onStarted], whose body is not part of the
    sources: the handshake starts in [READ_CLIENT_HELLO]. *)
Definition onStarted (a : Authenticator) : Authenticator :=
  set_state READ_CLIENT_HELLO a.

(** Modelled from the spec: [doSessionChallenge], whose body is not part of
    the sources: the challenge offers [session_types_]. *)
Definition doSessionChallenge (a : Authenticator) : Authenticator :=
  set_state SEND_SESSION_CHALLENGE
    (send (SessionChallenge (session_types_ a) (cpu_features P)
                            (SERVER_VERSION P)) a).

(** Modelled from the spec: [onClientHello], whose body is not part of the
    sources.  The version must reach [MIN_VERSION]; the server picks SRP if
    the client offers it and any user exists, otherwise ANONYMOUS if both
    sides permit it, otherwise the handshake fails. *)
Definition onClientHello (a : Authenticator) (version methods : Z)
    : Authenticator :=
  if version <? MIN_VERSION P then fail PROTOCOL_ERROR a
  else
    let any_user :=
      match user_list_ a with Some (_ :: _) => true | _ => false end in
    let anonymous_enabled :=
      match anonymous_access_ a with ENABLE => true | DISABLE => false end in
    if has_bit methods (METHOD_SRP P) && any_user
    then set_state SEND_SERVER_HELLO
           (send (ServerHello (Z.min version (SERVER_VERSION P)) SRP
                              (ecdh_public P))
                 (set_method SRP a))
    else if has_bit methods (METHOD_ANONYMOUS P) && anonymous_enabled
    then set_state SEND_SERVER_HELLO
           (send (ServerHello (Z.min version (SERVER_VERSION P)) ANONYMOUS
                              (ecdh_public P))
                 (set_method ANONYMOUS a))
    else fail ACCESS_DENIED a.

(** Modelled from the spec: the record the handshake goes on with, and
    whether it is a synthesized one: the user found under the name, if
    enabled; otherwise the record synthesized from
    [H(name || server_secret)]. *)
Definition identify (a : Authenticator) (username : ByteArray)
    : UserRecord * bool :=
  let bogus := synthesize P (hash P (username ++ server_secret P)) in
  match user_list_ a with
  | Some users =>
      match find users username with
      | Some u => if has_bit (flags u) (ENABLED P) then (u, false)
                  else (bogus, true)
      | None => (bogus, true)
      end
  | None => (bogus, true)
  end.

(** Modelled from the spec: the multiplier [k = H(N || PAD(g))]. *)
Definition srp_k (N g : BigNum) : BigNum :=
  of_be (hash P (BigNum_toBytes N ++ PAD N g)).

(** Modelled from the spec: [onIdentify], whose body is not part of the
    sources.  A name outside the character set is a protocol error; the
    numbers come from the user's record or from the synthesized one, with
    [b] in [1, N-1] and [B = (k*v + g^b) mod N]. *)
Definition onIdentify (a : Authenticator) (username : ByteArray)
    : Authenticator :=
  if negb (User.isValidUserName (map Z_of_byte username))
  then fail PROTOCOL_ERROR a
  else
    let '(record, bogus) := identify a username in
    let n_group := if bogus then default_group P else group record in
    let '(N, g) := srp_group P n_group in
    let v := verifier record in
    let b := 1 + random_b P mod (N - 1) in
    let B := (srp_k N g * v + g ^ b) mod N in
    let a := set_srp (mkSrp N g v (of_be (salt record)) b B 0) a in
    let a := set_session_types (sessions record) a in
    let a := set_identity username bogus a in
    set_state SEND_SERVER_KEY_EXCHANGE
      (send (ServerKeyExchange n_group (salt record) (PAD N B) (random_iv P))
            a).

(** Modelled from the spec: the scrambling parameter
    [u = H(PAD(A) || PAD(B))]. *)
Definition srp_u (N A B : BigNum) : BigNum :=
  of_be (hash P (PAD N A ++ PAD N B)).

(** Modelled from the spec: [createSrpKey], whose body is not part of the
    sources: no key if [A mod N = 0] or [u = 0]; otherwise [K = H(S)] with
    [S = (A * v^u)^b mod N]. *)
Definition createSrpKey (a : Authenticator) : option ByteArray :=
  let n := srp a in
  if A_ n mod N_ n =? 0 then None
  else
    let u := srp_u (N_ n) (A_ n) (B_ n) in
    if u =? 0 then None
    else
      let S := (A_ n * v_ n ^ u) ^ b_ n mod N_ n in
      Some (hash P (BigNum_toBytes S)).

(** Modelled from the spec: what [onClientKeyExchange] does once it has the
    SRP key: derive the two keys, decrypt the requested session types,
    intersect them with the allowed ones, install the keys and send the
    challenge, with no session type if the handshake is marked will-fail. *)
Definition onSrpKey (a : Authenticator) (K iv payload : ByteArray)
    : Authenticator :=
  let keys := derive_keys P K (ecdh_shared P) (BigNum_toBytes (s_ (srp a))) in
  match decrypt P (fst keys) iv payload with
  | None => fail ACCESS_DENIED a
  | Some plain =>
      match of_le32 plain with
      | None => fail PROTOCOL_ERROR a
      | Some requested =>
          let allowed := Z.land requested (session_types_ a) in
          if allowed =? 0 then fail ACCESS_DENIED a
          else
            let offered :=
              if will_fail (connection a) then 0 else allowed in
            doSessionChallenge
              (set_session_types offered (setEncryption keys a))
      end
  end.

(** Modelled from the spec: [onClientKeyExchange], whose body is not part
    of the sources. *)
Definition onClientKeyExchange (a : Authenticator) (A iv payload : ByteArray)
    : Authenticator :=
  let a := set_A (of_be A) a in
  match createSrpKey a with
  | None => fail PROTOCOL_ERROR a
  | Some K => onSrpKey a K iv payload
  end.

(** Modelled from the spec: [onSessionResponse], whose body is not part of
    the sources: the session type must be one bit of the offered mask. *)
Definition onSessionResponse (a : Authenticator) (session_type cpu : Z)
    : Authenticator :=
  if is_single_bit session_type && has_bit (session_types_ a) session_type
  then finish session_type a
  else fail (if will_fail (connection a) then ACCESS_DENIED
             else SESSION_DENIED) a.

(** Modelled from the spec: [onReceived], whose body is not part of the
    sources.  [None] is a frame that does not decode; a message is handled
    only in the state that reads it. *)
Definition onReceived (a : Authenticator) (frame : option ClientMessage)
    : Authenticator :=
  match frame with
  | None => fail PROTOCOL_ERROR a
  | Some m =>
      if InternalState_eqb (expected_in m) (internal_state_ a)
      then
        match m with
        | ClientHello version methods => onClientHello a version methods
        | Identify username => onIdentify a username
        | ClientKeyExchange A iv payload => onClientKeyExchange a A iv payload
        | SessionResponse session_type cpu =>
            onSessionResponse a session_type cpu
        end
      else fail PROTOCOL_ERROR a
  end.

(** Modelled from the spec: [onWritten], whose body is not part of the
    sources.  After [ServerHello] the SRP path reads [Identify]; the
    anonymous path derives its keys from the ECDH exchange alone and goes
    straight to the challenge. *)
Definition onWritten (a : Authenticator) : Authenticator :=
  match internal_state_ a with
  | SEND_SERVER_HELLO =>
      match method_ (connection a) with
      | SRP => set_state READ_IDENTIFY a
      | ANONYMOUS =>
          doSessionChallenge
            (setEncryption
               (derive_keys P [] (ecdh_shared P) (anonymous_salt P)) a)
      end
  | SEND_SERVER_KEY_EXCHANGE => set_state READ_CLIENT_KEY_EXCHANGE a
  | SEND_SESSION_CHALLENGE => set_state READ_SESSION_RESPONSE a
  | _ => fail INTERNAL_ERROR a
  end.

(** Modelled from the spec: what the channel tells the authenticator: a
    frame came in, or the last write completed. *)
Inductive Event : Type :=
| Received (frame : option ClientMessage)
| Written.

(** Modelled from the spec: one event; a handshake that is over takes no
    more. *)
Definition step (a : Authenticator) (e : Event) : Authenticator :=
  match outcome (connection a) with
  | PENDING =>
      match e with
      | Received frame => onReceived a frame
      | Written => onWritten a
      end
  | _ => a
  end.

Definition run (a : Authenticator) (events : list Event) : Authenticator :=
  fold_left step events a.

(** The states a run goes through, the first one included. *)
Fixpoint trace (a : Authenticator) (events : list Event)
    : list HandshakeState :=
  handshake_state a ::
  match events with
  | [] => []
  | e :: rest => trace (step a e) rest
  end.

(** *** Users that cannot log in *)

(** For a user that is missing or disabled the record is the synthesized
    one, a function of [H(name || server_secret)] alone. *)
Lemma identify_bogus a username :
  (forall users u, user_list_ a = Some users -> find users username = Some u ->
                   has_bit (flags u) (ENABLED P) = false) ->
  identify a username
  = (synthesize P (hash P (username ++ server_secret P)), true).
Proof.
  intro Hdis. unfold identify.
  destruct (user_list_ a) as [users|]; [|reflexivity].
  destruct (find users username) as [u|] eqn:Hf; [|reflexivity].
  rewrite (Hdis users u eq_refl Hf). reflexivity.
Qed.

(** Whoever the name belongs to, a valid [Identify] is answered by one
    [ServerKeyExchange], and the handshake goes on; it is marked will-fail
    exactly when the record is a synthesized one. *)
Lemma onIdentify_continues a username :
  outcome (connection a) = PENDING ->
  User.isValidUserName (map Z_of_byte username) = true ->
  let a' := onIdentify a username in
  handshake_state a' = Active SEND_SERVER_KEY_EXCHANGE /\
  will_fail (connection a') = snd (identify a username) /\
  exists n_group salt B iv,
    sent (connection a') =
    sent (connection a) ++ [ServerKeyExchange n_group salt B iv].
Proof.
  intros Hp Hv a'. subst a'. unfold onIdentify. rewrite Hv. cbn [negb].
  destruct (identify a username) as [record bogus].
  destruct (srp_group P _) as [N g]. cbn.
  unfold handshake_state. cbn. rewrite Hp.
  split; [reflexivity|]. split; [reflexivity|].
  do 4 eexists. reflexivity.
Qed.

End Handshake.

(** ** Sample data *)

(** Small primitives to run the handshake on: the group is [N = 23],
    [g = 5]; the hash is the identity; decryption accepts everything. *)
Definition toy : Primitives :=
  {| hash := fun b => b;
     derive_keys := fun K e s => (K ++ e, s ++ K);
     decrypt := fun _ _ c => Some c;
     srp_group := fun _ => (23, 5);
     default_group := G3072;
     synthesize := fun seed => mkUserRecord [] seed (of_be seed mod 23) G3072 0 0;
     server_secret := [x2a];
     anonymous_salt := [];
     MIN_VERSION := 1;
     SERVER_VERSION := 2;
     METHOD_SRP := 1;
     METHOD_ANONYMOUS := 2;
     ENABLED := 1;
     cpu_features := 0;
     ecdh_public := [x01];
     ecdh_shared := [x02];
     random_b := 6;
     random_iv := [x00] |}.

(** The user [alice]: enabled, allowed the session types 1 and 2. *)
Definition alice : UserRecord :=
  mkUserRecord [x61; x6c; x69; x63; x65] [x05] 7 G3072 3 1.

(** A server with anonymous access to session type 2 and no user. *)
Definition anonymous_server : Authenticator :=
  onStarted
    (configured [SetPrivateKey (repeat x01 32); SetAnonymousAccess ENABLE 2]).

(** A server that knows [alice], after [ClientHello], [Identify] and the
    two writes: it waits for [ClientKeyExchange]. *)
Definition awaiting_key_exchange : Authenticator :=
  run toy (onStarted (configured [SetUserList [alice]]))
      [Received (Some (ClientHello 2 1)); Written;
       Received (Some (Identify [x61; x6c; x69; x63; x65])); Written].

(** The two paths on the sample data: the anonymous one, and SRP for
    [alice]. *)
Example handshake_runs :
  trace toy anonymous_server
        [Received (Some (ClientHello 2 2)); Written; Written;
         Received (Some (SessionResponse 2 0))]
  = [Active READ_CLIENT_HELLO; Active SEND_SERVER_HELLO;
     Active SEND_SESSION_CHALLENGE; Active READ_SESSION_RESPONSE; DONE] /\
  trace toy awaiting_key_exchange
        [Received (Some (ClientKeyExchange [x05] [x00] [x01; x00; x00; x00]));
         Written; Received (Some (SessionResponse 1 0));
         Received (Some (SessionResponse 1 0))]
  = [Active READ_CLIENT_KEY_EXCHANGE; Active SEND_SESSION_CHALLENGE;
     Active READ_SESSION_RESPONSE; DONE; DONE].
Proof. repeat split. Qed.

(** ** Configuration: anonymous access *)

Lemma configured_snoc calls c :
  configured (calls ++ [c]) = fst (configure (configured calls) c).
Proof. unfold configured. rewrite fold_left_app. reflexivity. Qed.

(** A key the authenticator holds was installed by a [setPrivateKey] call
    that returned true. *)
Lemma key_pair_installed calls : forall k,
  key_pair_ (configured calls) = Some k ->
  exists pre post,
    calls = pre ++ SetPrivateKey k :: post /\
    snd (setPrivateKey k (configured pre)) = true.
Proof.
  induction calls as [|c calls IH] using rev_ind; intros k Hk.
  - discriminate Hk.
  - rewrite configured_snoc in Hk.
    assert (Hold : key_pair_ (configured calls) = Some k ->
                   exists pre post,
                     calls ++ [c] = pre ++ SetPrivateKey k :: post /\
                     snd (setPrivateKey k (configured pre)) = true).
    { intro H. destruct (IH k H) as [pre [post [E S]]].
      exists pre, (post ++ [c]). split; [|exact S].
      rewrite E, <- app_assoc. reflexivity. }
    destruct c as [l|k0|m t]; cbn [configure fst] in Hk.
    + apply Hold. exact Hk.
    + unfold setPrivateKey in Hk.
      destruct (Nat.eqb (List.length k0) 32) eqn:Hlen; cbn in Hk.
      * injection Hk as ->. exists calls, []. split; [reflexivity|].
        unfold setPrivateKey. rewrite Hlen. reflexivity.
      * apply Hold. exact Hk.
    + apply Hold. unfold setAnonymousAccess in Hk.
      destruct m; destruct (key_pair_ (configured calls)) as [k1|] eqn:Hk1;
        cbn in Hk; rewrite ?Hk1 in Hk; congruence.
Qed.

(** C4.  A new authenticator has anonymous access disabled and no session
    type allowed.  [setAnonymousAccess(ENABLE, session_types)] returns true
    only if an earlier [setPrivateKey] call returned true, and then records
    the mode and the mask; without a private key it returns false and changes
    nothing. *)
Theorem anonymous_access_needs_private_key :
  (anonymous_access_ new_authenticator = DISABLE /\
   session_types_ new_authenticator = 0) /\
  (forall calls session_types a',
      setAnonymousAccess ENABLE session_types (configured calls) = (a', true) ->
      (exists pre k post,
          calls = pre ++ SetPrivateKey k :: post /\
          snd (setPrivateKey k (configured pre)) = true) /\
      anonymous_access_ a' = ENABLE /\
      session_types_ a' = session_types) /\
  (forall a session_types,
      key_pair_ a = None ->
      setAnonymousAccess ENABLE session_types a = (a, false)) /\
  (forall calls session_types,
      (forall pre k post,
          calls = pre ++ SetPrivateKey k :: post ->
          snd (setPrivateKey k (configured pre)) = false) ->
      setAnonymousAccess ENABLE session_types (configured calls)
      = (configured calls, false)) /\
  (setAnonymousAccess ENABLE 2 new_authenticator = (new_authenticator, false) /\
   let a := configured [SetPrivateKey (repeat x01 32)] in
   let r := setAnonymousAccess ENABLE 2 a in
   snd r = true /\ anonymous_access_ (fst r) = ENABLE /\
   session_types_ (fst r) = 2).
Proof.
  split; [split; reflexivity|].
  split.
  { intros calls session_types a' H. unfold setAnonymousAccess in H.
    destruct (key_pair_ (configured calls)) as [k|] eqn:Hk;
      [|discriminate H].
    injection H as <-. split; [|split; reflexivity].
    destruct (key_pair_installed calls k Hk) as [pre [post [E S]]].
    exists pre, k, post. split; assumption. }
  split.
  { intros a session_types H. unfold setAnonymousAccess. rewrite H.
    reflexivity. }
  split; [|repeat split].
  intros calls session_types Hnone. unfold setAnonymousAccess.
  destruct (key_pair_ (configured calls)) as [k|] eqn:Hk; [|reflexivity].
  destruct (key_pair_installed calls k Hk) as [pre [post [E S]]].
  rewrite (Hnone pre k post E) in S. discriminate S.
Qed.

(** ** The checks on [ClientKeyExchange] *)



End ServerAuthenticator.

(* ================================================================== *)
(** * source/base/files/base_paths.cc *)
(* ================================================================== *)

Module BasePaths.

(** [std::filesystem::path], as the string it holds. *)
Definition path := list ascii.

(** The platform the file is compiled for. *)
Inductive Platform : Type := OS_WIN | OS_POSIX | OS_OTHER.

(** The folders [SHGetFolderPathW] is asked for. *)
Inductive CSIDL : Type :=
| CSIDL_APPDATA
| CSIDL_DESKTOPDIRECTORY
| CSIDL_PROFILE
| CSIDL_COMMON_APPDATA
| CSIDL_COMMON_DESKTOPDIRECTORY.

(** What the operating system answers: [None] is a failed call
    ([GetWindowsDirectoryW] returning 0, a failed [HRESULT],
    [Environment::get] returning false). *)
Record System : Type := mkSystem {
  GetWindowsDirectoryW : option path;
  GetSystemDirectoryW : option path;
  SHGetFolderPathW : CSIDL -> option path;
  GetModuleFileNameW : option path;
  Environment_get : string -> option path
}.

Section Paths.

Variable os : Platform.
Variable sys : System.

(** [std::filesystem::path::append] and [parent_path]. *)
Variable append : path -> path -> path.
Variable parent_path : path -> path.

(** [result->assign(buffer); return true;] after a call that may fail: the
    value returned and [*result] afterwards. *)
Definition assign_from (answer : option path) (result : path) : bool * path :=
  match answer with
  | Some buffer => (true, buffer)
  | None => (false, result)
  end.

(** [bool BasePaths::windowsDir(path* result)] (Windows only) *)
Definition windowsDir (result : path) : bool * path :=
  assign_from (GetWindowsDirectoryW sys) result.

(** [bool BasePaths::systemDir(path* result)] (Windows only) *)
Definition systemDir (result : path) : bool * path :=
  assign_from (GetSystemDirectoryW sys) result.

(** [bool BasePaths::userAppData(path* result)] *)
Definition userAppData (result : path) : bool * path :=
  match os with
  | OS_WIN => assign_from (SHGetFolderPathW sys CSIDL_APPDATA) result
  | _ => (false, result)
  end.

(** [bool BasePaths::userHome(path* result)]; its second branch is
    [#elif (OS_POSIX)], taken on a POSIX build where [OS_POSIX] is defined to
    a non-zero value. *)
Definition userHome (result : path) : bool * path :=
  match os with
  | OS_WIN => assign_from (SHGetFolderPathW sys CSIDL_PROFILE) result
  | OS_POSIX => assign_from (Environment_get sys "HOME") result
  | OS_OTHER => (false, result)
  end.

(** [bool BasePaths::userDesktop(path* result)] *)
Definition userDesktop (result : path) : bool * path :=
  match os with
  | OS_WIN => assign_from (SHGetFolderPathW sys CSIDL_DESKTOPDIRECTORY) result
  | OS_POSIX =>
      let '(ok, result) := userHome result in
      if negb ok then (false, result)
      else (true, append result (list_ascii_of_string "Desktop"))
  | OS_OTHER => (false, result)
  end.

(** [bool BasePaths::commonAppData(path* result)] *)
Definition commonAppData (result : path) : bool * path :=
  match os with
  | OS_WIN => assign_from (SHGetFolderPathW sys CSIDL_COMMON_APPDATA) result
  | _ => (false, result)
  end.

(** [bool BasePaths::commonDesktop(path* result)] *)
Definition commonDesktop (result : path) : bool * path :=
  match os with
  | OS_WIN =>
      assign_from (SHGetFolderPathW sys CSIDL_COMMON_DESKTOPDIRECTORY) result
  | _ => (false, result)
  end.

(** [bool BasePaths::currentExecFile(path* result)] *)
Definition currentExecFile (result : path) : bool * path :=
  match os with
  | OS_WIN => assign_from (GetModuleFileNameW sys) result
  | _ => (false, result)
  end.

(** [bool BasePaths::currentExecDir(path* result)] *)
Definition currentExecDir (result : path) : bool * path :=
  let exe_path : path := [] in
  let '(ok, exe_path) := currentExecFile exe_path in
  if negb ok then (false, result)
  else (true, parent_path exe_path).

(** The functions of [BasePaths]. *)
Definition all_functions : list (path -> bool * path) :=
  [windowsDir; systemDir; userAppData; userHome; userDesktop;
   commonAppData; commonDesktop; currentExecFile; currentExecDir].

(** Every function of [BasePaths] leaves [*result] as it was when it
    returns false, and when it returns true what it stores does not depend on
    what [*result] held. *)
Theorem result_untouched_on_failure f result :
  In f all_functions ->
  (fst (f result) = false -> snd (f result) = result) /\
  (forall other, fst (f other) = fst (f result)) /\
  (fst (f result) = true -> forall other, snd (f other) = snd (f result)).
Proof.
  intro Hin. cbn in Hin.
  assert (Hassign : forall answer,
             (fst (assign_from answer result) = false ->
              snd (assign_from answer result) = result) /\
             (forall other, fst (assign_from answer other)
                            = fst (assign_from answer result)) /\
             (fst (assign_from answer result) = true ->
              forall other, snd (assign_from answer other)
                            = snd (assign_from answer result)))
    by (intros [b|]; cbn; repeat split; auto; discriminate).
  assert (Hfalse : (fst (false, result) = false ->
                    snd (false, result) = result) /\
                   (forall other : path, fst (false, other)
                                         = fst (false, result)) /\
                   (fst (false, result) = true ->
                    forall other : path, snd (false, other)
                                         = snd (false, result)))
    by (cbn; repeat split; auto; discriminate).
  repeat (destruct Hin as [<-|Hin]); try contradiction;
    try apply Hassign;
    try (unfold userAppData, userHome, commonAppData, commonDesktop,
           currentExecFile;
         destruct os; solve [apply Hassign | apply Hfalse]).
  - unfold userDesktop, userHome. destruct os;
      [apply Hassign| |apply Hfalse].
    destruct (Environment_get sys "HOME"); cbn;
      repeat split; auto; discriminate.
  - unfold currentExecDir, currentExecFile. destruct os;
      [|apply Hfalse|apply Hfalse].
    destruct (GetModuleFileNameW sys); cbn;
      repeat split; auto; discriminate.
Qed.

(** On a POSIX system only the home directory and the desktop can be
    found: they are found exactly when [HOME] is set, the desktop being
    [Desktop] appended to it; the application data, the common folders and the
    executable's file and directory always fail. *)
Theorem posix_paths result :
  os = OS_POSIX ->
  userHome result = assign_from (Environment_get sys "HOME") result /\
  (fst (userDesktop result) = true <-> Environment_get sys "HOME" <> None) /\
  (forall home, Environment_get sys "HOME" = Some home ->
                userDesktop result
                = (true, append home (list_ascii_of_string "Desktop"))) /\
  userAppData result = (false, result) /\
  commonAppData result = (false, result) /\
  commonDesktop result = (false, result) /\
  currentExecFile result = (false, result) /\
  currentExecDir result = (false, result).
Proof.
  intro Hos. unfold userDesktop, userAppData, commonAppData,
    commonDesktop, currentExecDir, currentExecFile, userHome.
  rewrite Hos.
  split; [reflexivity|]. split.
  { destruct (Environment_get sys "HOME"); cbn; split;
      congruence. }
  split.
  { intros home ->. reflexivity. }
  repeat split.
Qed.

(** The directory of the executable is found exactly when its file is, and
    is then the parent of that file. *)
Lemma currentExecDir_is_parent result :
  (fst (currentExecDir result) = true <->
   fst (currentExecFile result) = true) /\
  (forall exe, currentExecFile [] = (true, exe) ->
               currentExecDir result = (true, parent_path exe)).
Proof.
  unfold currentExecDir, currentExecFile. split.
  - destruct os; cbn; try tauto.
    destruct (GetModuleFileNameW sys); cbn; tauto.
  - intros exe H. rewrite H. reflexivity.
Qed.

End Paths.

(** A POSIX system whose [HOME] is [/home/bob], with paths joined by a
    slash: the desktop is [/home/bob/Desktop]. *)
Lemma posix_paths_witness :
  let sys := mkSystem None None (fun _ => None) None
               (fun _ => Some (list_ascii_of_string "/home/bob")) in
  let join := fun a b : path => a ++ list_ascii_of_string "/" ++ b in
  userDesktop OS_POSIX sys join []
  = (true, list_ascii_of_string "/home/bob/Desktop") /\
  currentExecDir OS_POSIX sys (fun p => p) [] = (false, []).
Proof.
  cbv zeta.
  pose proof (posix_paths OS_POSIX
                (mkSystem None None (fun _ => None) None
                   (fun _ => Some (list_ascii_of_string "/home/bob")))
                (fun a b : path => a ++ list_ascii_of_string "/" ++ b)
                (fun p => p) [] eq_refl) as [_ [_ [Hd [_ [_ [_ [_ He]]]]]]].
  split; [apply (Hd _ eq_refl)|exact He].
Defined.

(** Whatever the system answers, a failed [userHome] leaves the path it
    was given. *)
Lemma result_untouched_on_failure_witness :
  let sys := mkSystem None None (fun _ => None) None (fun _ => None) in
  userHome OS_POSIX sys (list_ascii_of_string "old")
  = (false, list_ascii_of_string "old").
Proof.
  cbv zeta.
  pose proof (proj1 (result_untouched_on_failure OS_POSIX
                (mkSystem None None (fun _ => None) None (fun _ => None))
                (fun a b => a ++ b) (fun p => p)
                (userHome OS_POSIX
                   (mkSystem None None (fun _ => None) None (fun _ => None)))
                (list_ascii_of_string "old")
                ltac:(cbn; tauto)) eq_refl) as H.
  apply injective_projections; [reflexivity|exact H].
Defined.

End BasePaths.
